(** * n0conflict: the conflict scanner, the presence check and the
      AI-response decoder, embedded from

      - [src/n0conflict/conflict.py]  ([parse_conflicts], [has_conflicts])
      - [src/n0conflict/resolver.py]  ([_parse_response])
      - [src/n0conflict/main.py]      (the splice loop of [resolve], the
                                       header of [explain])

    Python [str] values are sequences of Unicode code points; they are
    modelled as lists of code points ([N]).  The builtins the code relies on
    ([str.startswith], slicing, [str.rstrip], [str.strip],
    [str.splitlines(keepends=True)], [re.search] for the one pattern of the
    module) are written out as functions following their CPython behaviour. *)

From Stdlib Require Import List NArith Arith Bool Lia String Ascii Sorted.
Import ListNotations.

Local Open Scope N_scope.
Local Open Scope list_scope.

(** ** Strings *)

Definition char := N.
Definition str := list char.

Definition LF : char := 10.
Definition CR : char := 13.
Definition SPACE : char := 32.

(** An ASCII literal as a [str]. *)
Definition lit (s : string) : str :=
  List.map N_of_ascii (list_ascii_of_string s).

(** A text given line by line, each line closed by a line feed. *)
Definition unlines (ls : list string) : str :=
  List.concat (List.map (fun l => lit l ++ [LF]) ls).

Definition mem (c : char) (chars : str) : bool :=
  existsb (N.eqb c) chars.

(** [s.startswith(prefix)] *)
Fixpoint startswith (s prefix : str) {struct prefix} : bool :=
  match prefix, s with
  | [], _ => true
  | p :: ps, c :: cs => (c =? p) && startswith cs ps
  | _ :: _, [] => false
  end.

Fixpoint dropwhile (p : char -> bool) (s : str) : str :=
  match s with
  | [] => []
  | c :: cs => if p c then dropwhile p cs else s
  end.

(** [s.rstrip(chars)]: the trailing characters that belong to [chars] go. *)
Definition rstrip (chars : str) (s : str) : str :=
  rev (dropwhile (fun c => mem c chars) (rev s)).

(** The characters [str.splitlines] breaks lines at. *)
Definition is_linebreak (c : char) : bool :=
  mem c [10; 11; 12; 13; 28; 29; 30; 133; 8232; 8233].

(** [s.splitlines(keepends=True)].  [cur] is the line being read, from the
    start of the line to the current position.  A carriage return directly
    followed by a line feed is one terminator. *)
Fixpoint splitlines_from (cur : str) (s : str) : list str :=
  match s with
  | [] => match cur with [] => [] | _ => [cur] end
  | c :: rest =>
      if is_linebreak c then
        if c =? CR then
          match rest with
          | c' :: rest' =>
              if c' =? LF then (cur ++ [c; c']) :: splitlines_from [] rest'
              else (cur ++ [c]) :: splitlines_from [] rest
          | [] => (cur ++ [c]) :: splitlines_from [] rest
          end
        else (cur ++ [c]) :: splitlines_from [] rest
      else splitlines_from (cur ++ [c]) rest
  end.

Definition splitlines (s : str) : list str := splitlines_from [] s.

(** [""].join(lines) *)
Definition join (lines : list str) : str := List.concat lines.

(** ** conflict.py *)

Definition MARK_OPEN : str := lit "<<<<<<<".
Definition MARK_SEP : str := lit "=======".
Definition MARK_CLOSE : str := lit ">>>>>>>".

Record ConflictBlock := mkConflictBlock {
  ours_label : str;
  ours : str;
  theirs_label : str;
  theirs : str;
  start : nat;   (* 1-indexed line number of the opening marker *)
  end_ : nat;    (* 1-indexed line number of the closing marker *)
  raw : str
}.

(** [line[8:].rstrip("\r\n")] *)
Definition label_of (line : str) : str := rstrip [CR; LF] (skipn 8 line).

Local Close Scope N_scope.
Local Open Scope nat_scope.

(** The three loops of [parse_conflicts].  [rest] is [lines[i:]]; each
    function is the head of one [while], with the local variables of the
    source that are live there.

    - [seek_open]: the outer loop (lines 27-32), entered again after a
      block is appended (line 78);
    - [collect_ours]: the first inner loop (lines 41-44) and what follows
      it up to the separator (lines 46-50);
    - [collect_theirs]: the second inner loop (lines 54-57) and what
      follows it up to the end of the outer iteration (lines 59-78).

    Where the source leaves the outer loop by [break], the function returns
    [conflicts] as it stands, which is what line 80 returns. *)
Fixpoint seek_open (conflicts : list ConflictBlock) (i : nat)
    (rest : list str) {struct rest} : list ConflictBlock :=
  match rest with
  | [] => conflicts
  | line :: rest' =>
      if negb (startswith line MARK_OPEN) then
        seek_open conflicts (i + 1) rest'
      else
        let start_line := i + 1 in
        let ours_label := label_of line in
        let block_lines := [line] in
        collect_ours conflicts start_line ours_label block_lines []
          (i + 1) rest'
  end

with collect_ours (conflicts : list ConflictBlock) (start_line : nat)
    (ours_label : str) (block_lines ours_lines : list str) (i : nat)
    (rest : list str) {struct rest} : list ConflictBlock :=
  match rest with
  | [] => conflicts
  | line :: rest' =>
      if negb (startswith line MARK_SEP) then
        collect_ours conflicts start_line ours_label
          (block_lines ++ [line]) (ours_lines ++ [line]) (i + 1) rest'
      else
        collect_theirs conflicts start_line ours_label
          (block_lines ++ [line]) ours_lines [] (i + 1) rest'
  end

with collect_theirs (conflicts : list ConflictBlock) (start_line : nat)
    (ours_label : str) (block_lines ours_lines theirs_lines : list str)
    (i : nat) (rest : list str) {struct rest} : list ConflictBlock :=
  match rest with
  | [] => conflicts
  | line :: rest' =>
      if negb (startswith line MARK_CLOSE) then
        collect_theirs conflicts start_line ours_label
          (block_lines ++ [line]) ours_lines (theirs_lines ++ [line])
          (i + 1) rest'
      else
        let theirs_label := label_of line in
        let block_lines := block_lines ++ [line] in
        let end_line := i + 1 in
        seek_open
          (conflicts ++
             [ {| ours_label := ours_label;
                  ours := join ours_lines;
                  theirs_label := theirs_label;
                  theirs := join theirs_lines;
                  start := start_line;
                  end_ := end_line;
                  raw := join block_lines |} ])
          (i + 1) rest'
  end.

Definition parse_conflicts (content : str) : list ConflictBlock :=
  seek_open [] 0 (splitlines content).

(** [_CONFLICT_START = re.compile(r"^<{7} ", re.MULTILINE)] and its
    [search]: with [MULTILINE], [^] matches at the start of the string and
    directly after each line feed, and nowhere else.  [bol] tells whether
    the current position is such a place. *)
Definition CONFLICT_START_TOKEN : str := lit "<<<<<<< ".

Fixpoint search_from (bol : bool) (s : str) : bool :=
  match s with
  | [] => false
  | c :: rest =>
      (bol && startswith s CONFLICT_START_TOKEN) || search_from (N.eqb c LF) rest
  end.

Definition CONFLICT_START_search (content : str) : bool :=
  search_from true content.

(** Outcomes of code that may raise.  [path.read_text] raises [OSError]
    (or one of its subclasses) when the operating system refuses to open
    or read the file, [ValueError] when the path holds a NUL character
    (embedded null byte) and [UnicodeEncodeError] when the path cannot be
    encoded for the file system; with [errors="replace"] decoding the
    content does not raise. *)
Inductive exn := OSError | ValueError | UnicodeEncodeError.

Inductive result (A : Type) :=
| Return (a : A)
| Raise (e : exn).
Arguments Return {A} a.
Arguments Raise {A} e.

Definition bind {A B} (r : result A) (k : A -> result B) : result B :=
  match r with
  | Return a => k a
  | Raise e => Raise e
  end.

(** [try: body  except OSError: handler]: an exception of another class
    is not caught. *)
Definition try_except_OSError {A} (body handler : result A) : result A :=
  match body with
  | Raise OSError => handler
  | Raise e => Raise e
  | Return a => Return a
  end.

Definition Path := str.

(** The file system as [has_conflicts] sees it: what
    [path.read_text(encoding="utf-8", errors="replace")] gives. *)
Definition FileSystem := Path -> result str.

Definition has_conflicts (read_text : FileSystem) (path : Path) : result bool :=
  try_except_OSError
    (bind (read_text path) (fun content =>
       Return (CONFLICT_START_search content)))
    (Return false).

(** ** resolver.py *)

Record ResolutionResult := mkResolutionResult {
  resolved : bool;
  content : str;
  explanation : str
}.

(** The characters [str.strip()] removes: those for which [str.isspace]
    holds. *)
Definition is_space (c : char) : bool :=
  ((9 <=? c) && (c <=? 13) || (28 <=? c) && (c <=? 32) ||
   mem c [133; 160; 5760; 8232; 8233; 8239; 8287; 12288] ||
   (8192 <=? c) && (c <=? 8202))%N.

(** [s.strip()] *)
Definition strip (s : str) : str :=
  rev (dropwhile is_space (rev (dropwhile is_space s))).

Definition RESOLVED : str := lit "RESOLVED:".
Definition CANNOT_RESOLVE : str := lit "CANNOT_RESOLVE:".

Definition _parse_response (text : str) : ResolutionResult :=
  let text := strip text in
  if startswith text RESOLVED then
    let content := strip (skipn (List.length RESOLVED) text) in
    {| resolved := true;
       content := content;
       explanation := lit "Conflict resolved successfully." |}
  else if startswith text CANNOT_RESOLVE then
    let explanation := strip (skipn (List.length CANNOT_RESOLVE) text) in
    {| resolved := false;
       content := [];
       explanation := explanation |}
  else
    {| resolved := true;
       content := text;
       explanation := lit "Conflict resolved." |}.

(** ** Notions the statements use *)

(** [a] occurs in [b] as a contiguous run of characters ([a in b]). *)
Definition substring (a b : str) : Prop :=
  exists p q, b = p ++ a ++ q.

(** The lines of a text in the sense of the pattern's [^]: the text cut
    after each line feed (the line feeds themselves are dropped). *)
Fixpoint lines_lf (s : str) : list str :=
  match s with
  | [] => [[]]
  | c :: rest =>
      if N.eqb c LF then [] :: lines_lf rest
      else match lines_lf rest with
           | l :: ls => (c :: l) :: ls
           | [] => [[c]]
           end
  end.

(** The text starts with a line feed. *)
Definition starts_LF (s : str) : Prop :=
  match s with
  | c :: _ => c = LF
  | [] => False
  end.

(** What ends a line. *)
Inductive terminator : str -> Prop :=
| term_crlf : terminator [CR; LF]
| term_one c : is_linebreak c = true -> terminator [c].

(** The shape of a list of lines that [splitlines] can return: every line
    but possibly the last is a run of ordinary characters closed by a
    terminator, a lone carriage return is never followed by a line feed,
    and an unterminated last line is not empty. *)
Inductive lines_of : list str -> Prop :=
| lo_nil : lines_of []
| lo_last l :
    l <> [] -> Forall (fun c => is_linebreak c = false) l -> lines_of [l]
| lo_cons body t ls :
    Forall (fun c => is_linebreak c = false) body ->
    terminator t ->
    (t = [CR] -> ~ starts_LF (join ls)) ->
    lines_of ls ->
    lines_of ((body ++ t) :: ls).

Definition is_open (l : str) : bool := startswith l MARK_OPEN.
Definition is_sep (l : str) : bool := startswith l MARK_SEP.
Definition is_close (l : str) : bool := startswith l MARK_CLOSE.

(** [b] is the block read off [lines] at one place: an opening line, lines
    that are no separator, the first separator, lines that are no closing
    line, the first closing line. *)
Definition block_at (lines : list str) (b : ConflictBlock) : Prop :=
  exists pre op os sep ts cl post,
    lines = pre ++ op :: os ++ sep :: ts ++ cl :: post /\
    is_open op = true /\
    Forall (fun l => is_sep l = false) os /\
    is_sep sep = true /\
    Forall (fun l => is_close l = false) ts /\
    is_close cl = true /\
    b = {| ours_label := label_of op;
           ours := join os;
           theirs_label := label_of cl;
           theirs := join ts;
           start := List.length pre + 1;
           end_ := List.length pre + List.length os + List.length ts + 3;
           raw := join (op :: os ++ sep :: ts ++ [cl]) |}.

(** One block lies before another: it starts earlier and its closing line
    comes before the other's opening line. *)
Definition before (a b : ConflictBlock) : Prop :=
  start a < start b /\ end_ a < start b.

(** A marker line with nothing behind the token but what ends the line. *)
Definition bare_marker (token line : str) : Prop :=
  exists t, line = token ++ t /\ (t = [] \/ terminator t).

(** The block read at line [i + 1] from an opening line [op], the lines
    [os], a separator [sep], the lines [ts] and a closing line [cl]. *)
Definition block_of (i : nat) (op : str) (os : list str) (sep : str)
    (ts : list str) (cl : str) : ConflictBlock :=
  {| ours_label := label_of op;
     ours := join os;
     theirs_label := label_of cl;
     theirs := join ts;
     start := i + 1;
     end_ := i + List.length os + List.length ts + 3;
     raw := join (op :: os ++ sep :: ts ++ [cl]) |}.

(** The states in which the outer loop of [parse_conflicts] stands at its
    head, for the list [lines]: the blocks found so far, the index [i] and
    [lines[i:]].  It starts at index 0, steps over a line that opens
    nothing, and steps over a whole block, which it appends. *)
Inductive outer_loop (lines : list str) :
  list ConflictBlock -> nat -> list str -> Prop :=
| ol_start : outer_loop lines [] 0 lines
| ol_skip cs i line rest :
    outer_loop lines cs i (line :: rest) ->
    is_open line = false ->
    outer_loop lines cs (i + 1) rest
| ol_block cs i op os sep ts cl rest :
    outer_loop lines cs i (op :: os ++ sep :: ts ++ cl :: rest) ->
    is_open op = true ->
    Forall (fun l => is_sep l = false) os ->
    is_sep sep = true ->
    Forall (fun l => is_close l = false) ts ->
    is_close cl = true ->
    outer_loop lines (cs ++ [block_of i op os sep ts cl])
      (i + List.length os + List.length ts + 3) rest.

(** ** Inputs *)

(** Scenario A of the specification. *)
Definition scenario_A : str :=
  unlines ["<<<<<<< HEAD"; "a"; "======="; "b"; ">>>>>>> br"]%string.

(** A second opening line before the separator. *)
Definition nested_open : str :=
  unlines ["<<<<<<< HEAD"; "<<<<<<< inner"; "======="; "b"; ">>>>>>> br"]%string.

(** The one block of scenario A. *)
Definition scenario_A_block : ConflictBlock :=
  {| ours_label := lit "HEAD";
     ours := unlines ["a"]%string;
     theirs_label := lit "br";
     theirs := unlines ["b"]%string;
     start := 1;
     end_ := 5;
     raw := scenario_A |}.

(** A path that holds a NUL character. *)
Definition nul_path : Path := lit "a" ++ [0%N] ++ lit "b".

(** A file system without files, as CPython shows it: opening a path that
    holds a NUL character raises [ValueError], opening any other path
    raises [FileNotFoundError], an [OSError]. *)
Definition no_files : FileSystem :=
  fun path => if mem 0%N path then Raise ValueError else Raise OSError.

(** An opening line behind a form feed, which [splitlines] takes for a
    line break and the pattern's [^] does not. *)
Definition form_feed_text : str :=
  lit "x" ++ [12%N] ++ unlines ["<<<<<<< HEAD"; "a"; "======="; "b";
                                ">>>>>>> br"]%string.

(** Scenario C: an opening line and no separator behind it. *)
Definition scenario_C : str := unlines ["x = 1"; "<<<<<<< HEAD"; "a"]%string.

(** An opening line with a label and no space, a bare closing line. *)
Definition no_space_open : str :=
  unlines ["<<<<<<<HEAD"; "a"; "======="; "b"; ">>>>>>>"]%string.

(** A response in the second format of the system prompt. *)
Definition cannot_input : str :=
  lit "CANNOT_RESOLVE:" ++ [LF] ++ lit "no".

(** ** Notions the further properties use *)

(** [lines[lo:hi]] *)
Definition slice {A} (lo hi : nat) (l : list A) : list A :=
  firstn (hi - lo) (skipn lo l).

(** A block with its line numbers moved down by [d] lines. *)
Definition shift_block (d : nat) (b : ConflictBlock) : ConflictBlock :=
  {| ours_label := ours_label b;
     ours := ours b;
     theirs_label := theirs_label b;
     theirs := theirs b;
     start := start b + d;
     end_ := end_ b + d;
     raw := raw b |}.

(** A text without a line that opens a block; one line holds the token in
    its middle. *)
Definition clean_text : str :=
  unlines ["def foo(): pass"; "  x <<<<<<< y"]%string.

Definition two_blocks : str :=
  unlines ["<<<<<<< HEAD"; "x = 1"; "======="; "x = 2"; ">>>>>>> other";
           "";
           "<<<<<<< HEAD"; "y = 10"; "======="; "y = 20"; ">>>>>>> other"]%string.

Definition simple_conflict : str :=
  unlines ["def greet(name):"; "<<<<<<< HEAD"; "    return 1"; "=======";
           "    return 2"; ">>>>>>> feature/friendly-greeting"]%string.

(** A text that neither starts nor ends with white space. *)
Definition is_core (m : str) : Prop :=
  match m with c :: _ => is_space c = false | [] => True end /\
  match rev m with c :: _ => is_space c = false | [] => True end.


(** ** main.py *)

(** [s.replace(old, new, 1)]: the first occurrence of [old] in [s], if
    there is one, is replaced by [new]. *)
Fixpoint replace_first (old new s : str) : str :=
  if startswith s old then new ++ skipn (List.length old) s
  else match s with
       | [] => []
       | c :: rest => c :: replace_first old new rest
       end.

(** The loop of [resolve] that splices the resolutions into the text
    (lines 105-130).  [resolve idx conflict] stands for the call
    [resolver.resolve(conflict, language=language)] of iteration [idx]
    (the answer of the remote model); what the loop prints is left out.
    The result is [resolved_content] and [all_resolved] after the loop. *)
Fixpoint splice (resolve : nat -> ConflictBlock -> ResolutionResult)
    (idx : nat) (conflicts : list ConflictBlock) (resolved_content : str)
    (all_resolved : bool) : str * bool :=
  match conflicts with
  | [] => (resolved_content, all_resolved)
  | conflict :: rest =>
      let result := resolve idx conflict in
      if resolved result then
        splice resolve (idx + 1) rest
          (replace_first (raw conflict) (content result) resolved_content)
          all_resolved
      else
        splice resolve (idx + 1) rest resolved_content false
  end.

(** What the header line of [explain] shows (lines 209-212): the number of
    blocks and the range [conflicts[0].start]-[conflicts[-1].end].  On an
    empty list [conflicts[0]] raises [IndexError]; [None] stands for it. *)
Definition explain_header (conflicts : list ConflictBlock)
  : option (nat * nat * nat) :=
  match conflicts with
  | [] => None
  | first :: _ =>
      Some (List.length conflicts, start first, end_ (last conflicts first))
  end.

(** The texts [raws] occur in [s] one behind the other, in this order and
    without overlap. *)
Fixpoint chain (raws : list str) (s : str) : Prop :=
  match raws with
  | [] => True
  | r :: rs => exists x y, s = x ++ r ++ y /\ chain rs y
  end.

(** [old in s], computed. *)
Fixpoint occurs (old s : str) : bool :=
  startswith s old ||
  match s with
  | [] => false
  | _ :: rest => occurs old rest
  end.

(** The answer of a resolver that resolves every block to the same text. *)
Definition resolve_const (new : str) (idx : nat) (conflict : ConflictBlock)
  : ResolutionResult :=
  {| resolved := true; content := new; explanation := [] |}.

(** * Properties *)

(** ** Lines *)

Arguments is_linebreak : simpl never.

Lemma join_app (a b : list str) : join (a ++ b) = join a ++ join b.
Proof. apply concat_app. Qed.

Lemma join_cons (l : str) (ls : list str) : join (l :: ls) = l ++ join ls.
Proof. reflexivity. Qed.

Lemma splitlines_from_length_ind (P : str -> Prop) :
  (forall s, (forall s', List.length s' < List.length s -> P s') -> P s) ->
  forall s, P s.
Proof.
  intros IH s.
  remember (List.length s) as n eqn:Hn.
  revert s Hn.
  induction n as [n IHn] using lt_wf_ind.
  intros s ->. apply IH. intros s' Hlt. exact (IHn _ Hlt s' eq_refl).
Qed.

(** Joining the lines gives the text back, terminators included. *)
Lemma join_splitlines_from (s : str) :
  forall cur, join (splitlines_from cur s) = cur ++ s.
Proof.
  induction s as [s IH] using splitlines_from_length_ind.
  intros cur. destruct s as [|c rest]; simpl.
  - destruct cur; simpl; now rewrite ?app_nil_r.
  - destruct (is_linebreak c).
    + destruct (N.eqb c CR).
      * destruct rest as [|c' rest'].
        -- simpl. now rewrite app_nil_r.
        -- destruct (N.eqb c' LF).
           ++ rewrite join_cons, IH by (simpl; lia).
              simpl. now rewrite <- app_assoc.
           ++ rewrite join_cons, IH by (simpl; lia).
              simpl. now rewrite <- app_assoc.
      * rewrite join_cons, IH by (simpl; lia).
        simpl. now rewrite <- app_assoc.
    + rewrite IH by (simpl; lia). now rewrite <- app_assoc.
Qed.

Lemma join_splitlines (s : str) : join (splitlines s) = s.
Proof. unfold splitlines. now rewrite join_splitlines_from. Qed.

(** A terminated line at the front of a text is its first line. *)
Lemma splitlines_from_line (body t x : str) :
  Forall (fun c => is_linebreak c = false) body ->
  terminator t ->
  (t = [CR] -> ~ starts_LF x) ->
  forall cur,
    splitlines_from cur (body ++ t ++ x)
    = (cur ++ body ++ t) :: splitlines_from [] x.
Proof.
  intros Hbody Ht Hcr.
  induction Hbody as [|b body Hb _ IH]; intros cur.
  - destruct Ht as [|c Hc]; simpl.
    + reflexivity.
    + rewrite Hc. destruct (N.eqb_spec c CR) as [-> | Hne]; [|reflexivity].
      destruct x as [|c' x']; [reflexivity|].
      destruct (N.eqb_spec c' LF) as [-> | Hne']; [|reflexivity].
      exfalso. apply Hcr; reflexivity.
  - simpl. rewrite Hb, IH. now rewrite <- app_assoc.
Qed.

Lemma splitlines_from_plain (l : str) :
  Forall (fun c => is_linebreak c = false) l ->
  forall cur, cur ++ l <> [] -> splitlines_from cur l = [cur ++ l].
Proof.
  induction 1 as [|b l Hb _ IH]; intros cur Hne; simpl.
  - rewrite app_nil_r in Hne. rewrite app_nil_r.
    destruct cur; [contradiction | reflexivity].
  - rewrite Hb, IH.
    + now rewrite <- app_assoc.
    + rewrite <- app_assoc. exact Hne.
Qed.

Lemma lines_of_splitlines_from (s : str) :
  forall cur,
    Forall (fun c => is_linebreak c = false) cur ->
    lines_of (splitlines_from cur s).
Proof.
  induction s as [s IH] using splitlines_from_length_ind.
  intros cur Hcur. destruct s as [|c rest]; simpl.
  - destruct cur as [|c0 cur']; [constructor|].
    apply lo_last; [discriminate | exact Hcur].
  - destruct (is_linebreak c) eqn:Hc.
    + destruct (N.eqb_spec c CR) as [-> | Hne].
      * destruct rest as [|c' rest'].
        -- apply lo_cons;
             [exact Hcur | now apply term_one | intros _ [] | apply lo_nil].
        -- destruct (N.eqb_spec c' LF) as [-> | Hne'].
           ++ apply lo_cons;
                [exact Hcur | apply term_crlf | discriminate |].
              apply IH; [simpl; lia | constructor].
           ++ apply lo_cons; [exact Hcur | now apply term_one | |].
              ** intros _. fold (splitlines (c' :: rest')).
                 rewrite join_splitlines. exact Hne'.
              ** apply IH; [simpl; lia | constructor].
      * apply lo_cons; [exact Hcur | now apply term_one | |].
        -- intros E. injection E as E. contradiction.
        -- apply IH; [simpl; lia | constructor].
    + apply IH; [simpl; lia|].
      apply Forall_app; split; [exact Hcur | now constructor].
Qed.

Lemma lines_of_splitlines (s : str) : lines_of (splitlines s).
Proof. apply lines_of_splitlines_from. constructor. Qed.

(** Lines of that shape are the lines of their concatenation. *)
Lemma splitlines_join (ls : list str) :
  lines_of ls -> splitlines (join ls) = ls.
Proof.
  induction 1 as [|l Hne Hl|body t ls Hbody Ht Hcr _ IH].
  - reflexivity.
  - unfold splitlines. simpl. rewrite app_nil_r.
    now apply (splitlines_from_plain l Hl []).
  - unfold splitlines. rewrite join_cons, <- app_assoc.
    rewrite splitlines_from_line by assumption.
    simpl. f_equal. exact IH.
Qed.

Lemma lines_of_suffix (pre rest : list str) :
  lines_of (pre ++ rest) -> lines_of rest.
Proof.
  induction pre as [|l pre IH]; simpl; [auto|].
  intros H. inversion H as [|l' Hne Hl E|body t ls Hb Ht Hcr Hls E]; subst.
  - destruct pre; [|discriminate]. simpl in *. subst. constructor.
  - auto.
Qed.

Lemma lines_of_prefix (seg : list str) (l : str) (post : list str) :
  lines_of (seg ++ l :: post) -> lines_of seg.
Proof.
  induction seg as [|a seg IH]; simpl; [constructor|].
  intros H. inversion H as [|l' Hne Hl E|body t ls Hb Ht Hcr Hls E]; subst.
  - destruct seg; discriminate.
  - apply lo_cons; auto.
    intros Et Hlf. apply (Hcr Et).
    rewrite join_app. destruct (join seg); [contradiction | exact Hlf].
Qed.

(** A run of lines of a text that is followed by a further line is the
    list of lines of its own concatenation. *)
Lemma splitlines_segment (s : str) (pre seg : list str) (l : str)
    (post : list str) :
  splitlines s = pre ++ seg ++ l :: post ->
  splitlines (join seg) = seg.
Proof.
  intros E. apply splitlines_join.
  apply (lines_of_prefix seg l post).
  apply (lines_of_suffix pre). rewrite <- E. apply lines_of_splitlines.
Qed.

(** ** The scanner *)

Opaque MARK_OPEN MARK_SEP MARK_CLOSE.

Lemma Forall_snoc {A} (P : A -> Prop) (l : list A) (x : A) :
  Forall P l -> P x -> Forall P (l ++ [x]).
Proof. intros Hl Hx. apply Forall_app. split; [exact Hl | now constructor]. Qed.

Lemma negb_if {A} (b : bool) (x y : A) :
  (if negb b then x else y) = (if b then y else x).
Proof. now destruct b. Qed.

(** Every block the three loops append is read off the lines at one
    place.  The three statements are the loop invariants of the three
    loops; [lines] is the whole list and [rest] what is left of it. *)
Lemma scan_block_at (lines : list str) :
  forall rest,
    (forall cs i pre,
        lines = pre ++ rest -> i = List.length pre ->
        Forall (block_at lines) cs ->
        Forall (block_at lines) (seek_open cs i rest)) /\
    (forall cs i pre op os,
        lines = pre ++ op :: os ++ rest ->
        i = List.length pre + 1 + List.length os ->
        is_open op = true ->
        Forall (fun l => is_sep l = false) os ->
        Forall (block_at lines) cs ->
        Forall (block_at lines)
          (collect_ours cs (List.length pre + 1) (label_of op)
             (op :: os) os i rest)) /\
    (forall cs i pre op os sep ts,
        lines = pre ++ op :: os ++ sep :: ts ++ rest ->
        i = List.length pre + 1 + List.length os + 1 + List.length ts ->
        is_open op = true ->
        Forall (fun l => is_sep l = false) os ->
        is_sep sep = true ->
        Forall (fun l => is_close l = false) ts ->
        Forall (block_at lines) cs ->
        Forall (block_at lines)
          (collect_theirs cs (List.length pre + 1) (label_of op)
             (op :: os ++ sep :: ts) os ts i rest)).
Proof.
  induction rest as [|line rest (IHseek & IHours & IHtheirs)].
  - repeat split; intros; simpl; assumption.
  - repeat split.
    + intros cs i pre E Hi Hcs. simpl. rewrite negb_if.
      destruct (startswith line MARK_OPEN) eqn:Hline.
      * subst i. apply (IHours cs _ pre line []); auto; simpl; lia.
      * apply (IHseek cs _ (pre ++ [line])); auto.
        -- now rewrite <- app_assoc.
        -- rewrite length_app. simpl. lia.
    + intros cs i pre op os E Hi Hop Hos Hcs. simpl. rewrite negb_if.
      destruct (startswith line MARK_SEP) eqn:Hline.
      * replace ((op :: os) ++ [line]) with (op :: os ++ line :: [])
          by reflexivity.
        apply (IHtheirs cs _ pre op os line []); auto; simpl; lia.
      * replace ((op :: os) ++ [line]) with (op :: (os ++ [line]))
          by reflexivity.
        apply (IHours cs _ pre op (os ++ [line])); auto.
        -- now rewrite <- app_assoc.
        -- rewrite length_app. simpl. lia.
        -- now apply Forall_snoc.
    + intros cs i pre op os sep ts E Hi Hop Hos Hsep Hts Hcs.
      simpl. rewrite negb_if.
      destruct (startswith line MARK_CLOSE) eqn:Hline.
      * apply (IHseek _ _
                 (pre ++ op :: os ++ sep :: ts ++ [line])).
        -- rewrite E. rewrite <- app_assoc. simpl.
           rewrite <- app_assoc. simpl. now rewrite <- app_assoc.
        -- rewrite !length_app. simpl. rewrite !length_app. simpl.
           rewrite !length_app. simpl. lia.
        -- apply Forall_snoc; [exact Hcs|].
           exists pre, op, os, sep, ts, line, rest.
           repeat split; auto.
           f_equal; [lia|].
           f_equal. simpl. rewrite <- app_assoc. reflexivity.
      * replace ((os ++ sep :: ts) ++ [line])
          with (os ++ sep :: (ts ++ [line]))
          by now rewrite <- app_assoc.
        apply (IHtheirs cs _ pre op os sep (ts ++ [line])); auto.
        -- rewrite E. now rewrite <- app_assoc.
        -- rewrite length_app. simpl. lia.
        -- now apply Forall_snoc.
Qed.

Lemma parse_conflicts_block_at (content : str) (b : ConflictBlock) :
  In b (parse_conflicts content) -> block_at (splitlines content) b.
Proof.
  intros Hin.
  pose proof (proj1 (scan_block_at (splitlines content) (splitlines content))
                [] 0 [] eq_refl eq_refl (Forall_nil _)) as H.
  rewrite Forall_forall in H. now apply H.
Qed.

Lemma StronglySorted_snoc {A} (R : A -> A -> Prop) (l : list A) (x : A) :
  StronglySorted R l -> Forall (fun a => R a x) l ->
  StronglySorted R (l ++ [x]).
Proof.
  induction 1 as [|a l Hl IH Ha]; intros Hx; simpl.
  - repeat constructor.
  - inversion Hx; subst. constructor; [now apply IH|].
    now apply Forall_snoc.
Qed.

(** The list of blocks stays ordered through the three loops: at the outer
    loop every block found so far closes at or before line [i]; inside a
    candidate that opened at [sl], every earlier block closes before
    [sl]. *)
Lemma scan_sorted :
  forall rest,
    (forall cs i,
        StronglySorted before cs ->
        Forall (fun a => start a <= end_ a /\ end_ a <= i) cs ->
        StronglySorted before (seek_open cs i rest) /\
        Forall (fun a => start a <= end_ a) (seek_open cs i rest)) /\
    (forall cs sl ol bl os i,
        StronglySorted before cs ->
        Forall (fun a => start a <= end_ a /\ end_ a < sl) cs ->
        sl <= i ->
        StronglySorted before (collect_ours cs sl ol bl os i rest) /\
        Forall (fun a => start a <= end_ a)
          (collect_ours cs sl ol bl os i rest)) /\
    (forall cs sl ol bl os ts i,
        StronglySorted before cs ->
        Forall (fun a => start a <= end_ a /\ end_ a < sl) cs ->
        sl <= i ->
        StronglySorted before (collect_theirs cs sl ol bl os ts i rest) /\
        Forall (fun a => start a <= end_ a)
          (collect_theirs cs sl ol bl os ts i rest)).
Proof.
  assert (Hweak : forall (P Q : ConflictBlock -> Prop) cs,
             (forall a, P a -> Q a) -> Forall P cs -> Forall Q cs).
  { intros P Q cs HPQ H. eapply Forall_impl; eauto. }
  induction rest as [|line rest (IHseek & IHours & IHtheirs)].
  - repeat split; simpl; auto; eapply Hweak; eauto; simpl; tauto.
  - split; [|split].
    + intros cs i Hs Hb. simpl. rewrite negb_if.
      destruct (startswith line MARK_OPEN).
      * apply IHours; auto.
        eapply Hweak; [|exact Hb]. simpl. intros a Ha. lia.
      * apply IHseek; auto.
        eapply Hweak; [|exact Hb]. simpl. intros a Ha. lia.
    + intros cs sl ol bl os i Hs Hb Hi. simpl. rewrite negb_if.
      destruct (startswith line MARK_SEP).
      * apply IHtheirs; auto. lia.
      * apply IHours; auto. lia.
    + intros cs sl ol bl os ts i Hs Hb Hi. simpl. rewrite negb_if.
      destruct (startswith line MARK_CLOSE).
      * apply IHseek.
        -- apply StronglySorted_snoc; [exact Hs|].
           eapply Hweak; [|exact Hb]. unfold before. simpl.
           intros a Ha. lia.
        -- apply Forall_snoc.
           ++ eapply Hweak; [|exact Hb]. simpl. intros a Ha. lia.
           ++ simpl. lia.
      * apply IHtheirs; auto. lia.
Qed.

Transparent MARK_OPEN MARK_SEP MARK_CLOSE.

Lemma nth_error_middle {A} (a : list A) (x : A) (b : list A) :
  nth_error (a ++ x :: b) (List.length a) = Some x.
Proof. induction a; simpl; auto. Qed.

Lemma label_of_bare_open (line : str) :
  bare_marker MARK_OPEN line -> label_of line = [].
Proof.
  intros (t & -> & [-> | Ht]); [reflexivity|].
  destruct Ht; reflexivity.
Qed.

Lemma label_of_bare_close (line : str) :
  bare_marker MARK_CLOSE line -> label_of line = [].
Proof.
  intros (t & -> & [-> | Ht]); [reflexivity|].
  destruct Ht; reflexivity.
Qed.

Opaque MARK_OPEN MARK_SEP MARK_CLOSE.

(** A candidate whose closing line, or whose separator, never comes is
    dropped: the inner loops run to the end of the input and the list of
    blocks is returned as it stands. *)
Lemma collect_theirs_no_close (rest : list str) :
  Forall (fun l => is_close l = false) rest ->
  forall cs sl ol bl os ts i,
    collect_theirs cs sl ol bl os ts i rest = cs.
Proof.
  induction 1 as [|line rest Hline _ IH]; intros; simpl; [reflexivity|].
  unfold is_close in Hline. rewrite Hline. simpl. apply IH.
Qed.

Lemma collect_ours_no_sep (rest : list str) :
  Forall (fun l => is_sep l = false) rest ->
  forall cs sl ol bl os i,
    collect_ours cs sl ol bl os i rest = cs.
Proof.
  induction 1 as [|line rest Hline _ IH]; intros; simpl; [reflexivity|].
  unfold is_sep in Hline. rewrite Hline. simpl. apply IH.
Qed.

Lemma collect_ours_no_close (os' : list str) (sep : str) (ts : list str) :
  Forall (fun l => is_sep l = false) os' ->
  is_sep sep = true ->
  Forall (fun l => is_close l = false) ts ->
  forall cs sl ol bl os i,
    collect_ours cs sl ol bl os i (os' ++ sep :: ts) = cs.
Proof.
  intros Hos Hsep Hts.
  induction Hos as [|line os' Hline _ IH]; intros; simpl.
  - unfold is_sep in Hsep. rewrite Hsep. simpl.
    now apply collect_theirs_no_close.
  - unfold is_sep in Hline. rewrite Hline. simpl. apply IH.
Qed.

(** The outer loop passes over lines that open nothing. *)
Lemma seek_open_skip (pre : list str) :
  Forall (fun l => is_open l = false) pre ->
  forall cs i rest,
    seek_open cs i (pre ++ rest) = seek_open cs (i + List.length pre) rest.
Proof.
  induction 1 as [|line pre Hline _ IH]; intros cs i rest; simpl.
  - now rewrite Nat.add_0_r.
  - unfold is_open in Hline. rewrite Hline. simpl. rewrite IH.
    f_equal. lia.
Qed.

(** The outer loop reads a whole block and goes on behind it. *)
Lemma collect_theirs_block (ts' : list str) (cl : str) :
  Forall (fun l => is_close l = false) ts' ->
  is_close cl = true ->
  forall cs sl ol bl os ts i rest,
    collect_theirs cs sl ol bl os ts i (ts' ++ cl :: rest)
    = seek_open
        (cs ++ [ {| ours_label := ol;
                    ours := join os;
                    theirs_label := label_of cl;
                    theirs := join (ts ++ ts');
                    start := sl;
                    end_ := i + List.length ts' + 1;
                    raw := join (bl ++ ts' ++ [cl]) |} ])
        (i + List.length ts' + 1) rest.
Proof.
  intros Hts Hcl.
  induction Hts as [|line ts' Hline _ IH]; intros; simpl.
  - unfold is_close in Hcl. rewrite Hcl. simpl.
    rewrite app_nil_r, Nat.add_0_r. reflexivity.
  - unfold is_close in Hline. rewrite Hline. simpl. rewrite IH.
    rewrite <- !app_assoc. simpl.
    replace (i + 1 + List.length ts' + 1) with (i + S (List.length ts') + 1)
      by lia.
    reflexivity.
Qed.

Lemma collect_ours_block (os' : list str) (sep : str) (ts : list str)
    (cl : str) :
  Forall (fun l => is_sep l = false) os' ->
  is_sep sep = true ->
  Forall (fun l => is_close l = false) ts ->
  is_close cl = true ->
  forall cs sl ol bl os i rest,
    collect_ours cs sl ol bl os i (os' ++ sep :: ts ++ cl :: rest)
    = seek_open
        (cs ++ [ {| ours_label := ol;
                    ours := join (os ++ os');
                    theirs_label := label_of cl;
                    theirs := join ts;
                    start := sl;
                    end_ := i + List.length os' + List.length ts + 2;
                    raw := join (bl ++ os' ++ sep :: ts ++ [cl]) |} ])
        (i + List.length os' + List.length ts + 2) rest.
Proof.
  intros Hos Hsep Hts Hcl.
  induction Hos as [|line os' Hline _ IH]; intros; simpl.
  - unfold is_sep in Hsep. rewrite Hsep. simpl.
    rewrite (collect_theirs_block ts cl Hts Hcl).
    rewrite app_nil_r, <- !app_assoc. simpl.
    replace (i + 1 + List.length ts + 1) with (i + 0 + List.length ts + 2)
      by lia.
    reflexivity.
  - unfold is_sep in Hline. rewrite Hline. simpl. rewrite IH.
    rewrite <- !app_assoc. simpl.
    replace (i + 1 + List.length os' + List.length ts + 2)
      with (i + S (List.length os') + List.length ts + 2) by lia.
    reflexivity.
Qed.

Lemma seek_open_block (op : str) (os : list str) (sep : str)
    (ts : list str) (cl : str) :
  is_open op = true ->
  Forall (fun l => is_sep l = false) os ->
  is_sep sep = true ->
  Forall (fun l => is_close l = false) ts ->
  is_close cl = true ->
  forall cs i rest,
    seek_open cs i (op :: os ++ sep :: ts ++ cl :: rest)
    = seek_open (cs ++ [block_of i op os sep ts cl])
        (i + List.length os + List.length ts + 3) rest.
Proof.
  intros Hop Hos Hsep Hts Hcl cs i rest. simpl.
  unfold is_open in Hop. rewrite Hop. simpl.
  rewrite (collect_ours_block os sep ts cl Hos Hsep Hts Hcl).
  unfold block_of. simpl.
  replace (i + 1 + List.length os + List.length ts + 2)
    with (i + List.length os + List.length ts + 3) by lia.
  reflexivity.
Qed.

(** From each of these states the loop returns what the whole run
    returns. *)
Lemma outer_loop_result (lines : list str) cs i rest :
  outer_loop lines cs i rest ->
  seek_open [] 0 lines = seek_open cs i rest.
Proof.
  induction 1 as [|cs i line rest _ IH Hline
                  |cs i op os sep ts cl rest _ IH Hop Hos Hsep Hts Hcl].
  - reflexivity.
  - rewrite IH. simpl. unfold is_open in Hline. now rewrite Hline.
  - rewrite IH. now apply seek_open_block.
Qed.

Transparent MARK_OPEN MARK_SEP MARK_CLOSE.

(** ** The presence check *)

(** For a prefix without line feed, a text starts with it exactly when its
    first line does. *)
Lemma startswith_first_line (s : str) :
  forall prefix,
    Forall (fun p => p <> LF) prefix ->
    startswith s prefix = startswith (hd [] (lines_lf s)) prefix.
Proof.
  induction s as [|c rest IH]; intros prefix Hp; [reflexivity|].
  destruct Hp as [|p ps Hp Hps]; [reflexivity|].
  cbn [startswith lines_lf]. destruct (N.eqb_spec c LF) as [-> | Hc].
  - cbn [hd startswith].
    destruct (N.eqb_spec LF p) as [E | _]; [congruence | reflexivity].
  - rewrite (IH ps Hps).
    destruct (lines_lf rest) as [|l ls]; reflexivity.
Qed.

Lemma token_has_no_LF : Forall (fun p => p <> LF) CONFLICT_START_TOKEN.
Proof. repeat constructor; discriminate. Qed.

(** The pattern is found exactly when a line starts with the token and a
    space; when the search starts inside a line, that line does not
    count. *)
Lemma search_from_lines (s : str) :
  search_from true s
  = existsb (fun l => startswith l CONFLICT_START_TOKEN) (lines_lf s) /\
  search_from false s
  = existsb (fun l => startswith l CONFLICT_START_TOKEN) (tl (lines_lf s)).
Proof.
  induction s as [|c rest [IHt IHf]]; [split; reflexivity|].
  pose proof (startswith_first_line (c :: rest) _ token_has_no_LF) as Hhd.
  cbn [search_from andb]. rewrite Hhd. cbn [lines_lf].
  destruct (N.eqb c LF).
  - rewrite IHt. split; reflexivity.
  - rewrite IHf. destruct (lines_lf rest) as [|l ls]; split; reflexivity.
Qed.

(** * The claims *)

(** C1 (the code departs from the claim).  The claim: whenever
    [has_conflicts] answers false for a content, [parse_conflicts] finds
    no block in it.  On the file holding the three bare marker lines
    [<<<<<<<], [=======], [>>>>>>>] the presence check answers false,
    because its pattern asks for a space behind the opening token, while
    the scanner, which asks for the token only, returns one block. *)
Theorem has_conflicts_misses_bare_marker :
  let content := unlines ["<<<<<<<"; "======="; ">>>>>>>"]%string in
  has_conflicts (fun _ => Return content) (lit "f.txt") = Return false /\
  parse_conflicts content
  = [ {| ours_label := []; ours := []; theirs_label := []; theirs := [];
         start := 1; end_ := 3; raw := content |} ].
Proof. split; reflexivity. Qed.

(** C2, as the code has it: in every block returned by [parse_conflicts],
    no line of [ours] starts with the separator token and no line of
    [theirs] starts with the closing token. *)
Theorem sides_exclude_own_terminator (content : str) (b : ConflictBlock) :
  In b (parse_conflicts content) ->
  Forall (fun l => is_sep l = false) (splitlines (ours b)) /\
  Forall (fun l => is_close l = false) (splitlines (theirs b)).
Proof.
  intros Hin.
  destruct (parse_conflicts_block_at content b Hin)
    as (pre & op & os & sep & ts & cl & post & E & _ & Hos & _ & Hts & _ & ->).
  simpl. split.
  - rewrite (splitlines_segment content (pre ++ [op]) os sep
               (ts ++ cl :: post)); [exact Hos|].
    rewrite E, <- app_assoc. reflexivity.
  - rewrite (splitlines_segment content (pre ++ op :: os ++ [sep]) ts cl post);
      [exact Hts|].
    rewrite E, <- app_assoc. simpl. rewrite <- app_assoc. reflexivity.
Qed.

(** C2 as stated fails: a second opening line before the separator is
    collected into [ours]. *)
Lemma ours_may_hold_marker_line :
  exists b l,
    In b (parse_conflicts nested_open) /\
    In l (splitlines (ours b)) /\
    is_open l = true.
Proof.
  eexists. eexists. split; [|split].
  - left. reflexivity.
  - left. reflexivity.
  - reflexivity.
Qed.

Lemma sides_exclude_own_terminator_witness :
  exists b,
    In b (parse_conflicts nested_open) /\
    Forall (fun l => is_sep l = false) (splitlines (ours b)) /\
    Forall (fun l => is_close l = false) (splitlines (theirs b)).
Proof.
  eexists. split.
  - left. reflexivity.
  - apply (sides_exclude_own_terminator nested_open). left. reflexivity.
Defined.

(** C3: the blocks returned by [parse_conflicts] come in strictly
    ascending [start] order and their line ranges [start..end] do not
    overlap: each block closes before any later block opens, and no block
    closes before it opens. *)
Theorem parse_conflicts_ordered (content : str) :
  StronglySorted before (parse_conflicts content) /\
  Forall (fun b => start b <= end_ b) (parse_conflicts content).
Proof.
  apply (proj1 (scan_sorted (splitlines content))); constructor.
Qed.

(** C4: for every block [b] returned by [parse_conflicts], [raw b] is a
    substring of the input, and [ours b] and [theirs b] are substrings of
    [raw b]. *)
Theorem raw_and_sides_are_substrings (content : str) (b : ConflictBlock) :
  In b (parse_conflicts content) ->
  substring (raw b) content /\
  substring (ours b) (raw b) /\
  substring (theirs b) (raw b).
Proof.
  intros Hin.
  destruct (parse_conflicts_block_at content b Hin)
    as (pre & op & os & sep & ts & cl & post & E & _ & _ & _ & _ & _ & ->).
  cbn [raw ours theirs]. repeat split.
  - exists (join pre), (join post).
    rewrite <- (join_splitlines content) at 1. rewrite E.
    replace (pre ++ op :: os ++ sep :: ts ++ cl :: post)
      with (pre ++ (op :: os ++ sep :: ts ++ [cl]) ++ post).
    + rewrite !join_app. reflexivity.
    + simpl. rewrite <- app_assoc. simpl. rewrite <- app_assoc. reflexivity.
  - exists op, (join (sep :: ts ++ [cl])).
    rewrite join_cons, join_app. reflexivity.
  - exists (op ++ join os ++ sep), cl.
    rewrite join_cons, join_app, join_cons, join_app, join_cons.
    change (join []) with (@nil char).
    rewrite app_nil_r, <- !app_assoc. reflexivity.
Qed.

Lemma raw_and_sides_are_substrings_witness :
  In scenario_A_block (parse_conflicts scenario_A) /\
  substring (raw scenario_A_block) scenario_A /\
  substring (ours scenario_A_block) (raw scenario_A_block) /\
  substring (theirs scenario_A_block) (raw scenario_A_block).
Proof.
  split.
  - left. reflexivity.
  - apply (raw_and_sides_are_substrings scenario_A scenario_A_block).
    left. reflexivity.
Defined.

(** C5: when the outer loop of [parse_conflicts] stands at an opening line
    and the input ends before a separator line comes, or a separator line
    comes and the input ends before a closing line does, the result is the
    list of blocks found before that line: nothing for the candidate and
    nothing behind it.  In particular a text whose only opening line has
    no separator behind it gives no block. *)
Theorem abandoned_candidate_stops_scan :
  (forall content cs i op rest,
      outer_loop (splitlines content) cs i (op :: rest) ->
      is_open op = true ->
      Forall (fun l => is_sep l = false) rest ->
      parse_conflicts content = cs) /\
  (forall content cs i op os sep ts,
      outer_loop (splitlines content) cs i (op :: os ++ sep :: ts) ->
      is_open op = true ->
      Forall (fun l => is_sep l = false) os ->
      is_sep sep = true ->
      Forall (fun l => is_close l = false) ts ->
      parse_conflicts content = cs) /\
  (forall content pre op rest,
      splitlines content = pre ++ op :: rest ->
      Forall (fun l => is_open l = false) pre ->
      is_open op = true ->
      Forall (fun l => is_sep l = false) rest ->
      parse_conflicts content = []).
Proof.
  split; [|split].
  - intros content cs i op rest Hloop Hop Hrest.
    unfold parse_conflicts. rewrite (outer_loop_result _ _ _ _ Hloop).
    cbn [seek_open]. unfold is_open in Hop. rewrite Hop. cbn [negb].
    now apply collect_ours_no_sep.
  - intros content cs i op os sep ts Hloop Hop Hos Hsep Hts.
    unfold parse_conflicts. rewrite (outer_loop_result _ _ _ _ Hloop).
    cbn [seek_open]. unfold is_open in Hop. rewrite Hop. cbn [negb].
    now apply collect_ours_no_close.
  - intros content pre op rest E Hpre Hop Hrest.
    unfold parse_conflicts. rewrite E, (seek_open_skip pre Hpre).
    cbn [seek_open]. unfold is_open in Hop. rewrite Hop. cbn [negb].
    now apply collect_ours_no_sep.
Qed.

Lemma abandoned_candidate_stops_scan_witness :
  parse_conflicts scenario_C = [].
Proof.
  apply (proj2 (proj2 abandoned_candidate_stops_scan) scenario_C
           [unlines ["x = 1"]%string]
           (unlines ["<<<<<<< HEAD"]%string)
           [unlines ["a"]%string]).
  - reflexivity.
  - repeat constructor.
  - reflexivity.
  - repeat constructor.
Defined.

(** C6 (scenario A): [parse_conflicts] on the five lines
    [<<<<<<< HEAD], [a], [=======], [b], [>>>>>>> br] returns exactly one
    block, with labels [HEAD] and [br], sides [a] and [b] with their line
    feeds, lines 1 to 5, and the whole input as [raw]. *)
Theorem scenario_A_one_block :
  parse_conflicts scenario_A = [scenario_A_block].
Proof. reflexivity. Qed.

(** C7 as stated fails: the opening line [<<<<<<<HEAD] has no space behind
    the token, and its label is [EAD], the line from index 8 on. *)
Lemma label_without_space_not_empty :
  exists b op,
    In b (parse_conflicts no_space_open) /\
    nth_error (splitlines no_space_open) (start b - 1) = Some op /\
    is_open op = true /\
    nth_error op 7 <> Some SPACE /\
    ours_label b = lit "EAD".
Proof.
  eexists. eexists. split; [|split; [|split; [|split]]].
  - left. reflexivity.
  - reflexivity.
  - reflexivity.
  - discriminate.
  - reflexivity.
Qed.

(** C7, as the code has it: for every opening or closing marker line of a
    block that has nothing behind the 7-character token but what ends the
    line (or nothing at all), the label extracted by [parse_conflicts] is
    the empty string. *)
Theorem bare_marker_label_empty (content : str) (b : ConflictBlock) :
  In b (parse_conflicts content) ->
  exists op cl,
    nth_error (splitlines content) (start b - 1) = Some op /\
    nth_error (splitlines content) (end_ b - 1) = Some cl /\
    (bare_marker MARK_OPEN op -> ours_label b = []) /\
    (bare_marker MARK_CLOSE cl -> theirs_label b = []).
Proof.
  intros Hin.
  destruct (parse_conflicts_block_at content b Hin)
    as (pre & op & os & sep & ts & cl & post & E & _ & _ & _ & _ & _ & ->).
  exists op, cl. simpl. rewrite E. repeat split.
  - replace (List.length pre + 1 - 1) with (List.length pre) by lia.
    apply nth_error_middle.
  - replace (pre ++ op :: os ++ sep :: ts ++ cl :: post)
      with ((pre ++ op :: os ++ sep :: ts) ++ cl :: post).
    + replace (List.length pre + List.length os + List.length ts + 3 - 1)
        with (List.length (pre ++ op :: os ++ sep :: ts)).
      * apply nth_error_middle.
      * rewrite length_app. simpl. rewrite length_app. simpl. lia.
    + rewrite <- app_assoc. simpl. rewrite <- app_assoc. reflexivity.
  - apply label_of_bare_open.
  - apply label_of_bare_close.
Qed.

Lemma bare_marker_label_empty_witness :
  In (hd scenario_A_block (parse_conflicts no_space_open))
     (parse_conflicts no_space_open) /\
  exists op cl,
    nth_error (splitlines no_space_open) 0 = Some op /\
    nth_error (splitlines no_space_open) 4 = Some cl /\
    bare_marker MARK_CLOSE cl /\
    theirs_label (hd scenario_A_block (parse_conflicts no_space_open)) = [].
Proof.
  assert (Hin : In (hd scenario_A_block (parse_conflicts no_space_open))
                  (parse_conflicts no_space_open)) by (left; reflexivity).
  split; [exact Hin|].
  destruct (bare_marker_label_empty no_space_open _ Hin)
    as (op & cl & Hop & Hcl & _ & Hbare).
  exists op, cl.
  assert (Hb : bare_marker MARK_CLOSE cl).
  { injection Hcl as <-. exists [LF]. split; [reflexivity|].
    right. now apply term_one. }
  split; [exact Hop|]. split; [exact Hcl|]. split; [exact Hb|].
  exact (Hbare Hb).
Defined.

(** C8 as stated fails.  [has_conflicts] raises where reading the file
    raises something else than [OSError]: for a path with a NUL character
    the file cannot be opened and [ValueError] comes out.  And "line" is
    not the line of the scanner: behind a form feed a line in the sense of
    [splitlines] starts with the token and a space, and the answer is
    false. *)
Lemma has_conflicts_may_raise :
  has_conflicts no_files nul_path = Raise ValueError /\
  (exists l, In l (splitlines form_feed_text) /\
             startswith l CONFLICT_START_TOKEN = true) /\
  has_conflicts (fun _ => Return form_feed_text) (lit "f.txt") = Return false.
Proof.
  split; [reflexivity|]. split; [|reflexivity].
  eexists. split; [right; left; reflexivity | reflexivity].
Qed.

(** C8, as the code has it: when reading the file raises [OSError] (a
    missing file among others), [has_conflicts] returns false; an
    exception of another class raised by the read comes out of
    [has_conflicts] as it is; when the file is read, it returns true
    exactly when some line of the decoded content starts with the
    7-character opening token and a space, the lines being the content cut
    at its line feeds and nowhere else. *)
Theorem has_conflicts_outcome (read_text : FileSystem) (path : Path) :
  has_conflicts read_text path
  = match read_text path with
    | Return content =>
        Return (existsb (fun l => startswith l CONFLICT_START_TOKEN)
                  (lines_lf content))
    | Raise OSError => Return false
    | Raise e => Raise e
    end.
Proof.
  unfold has_conflicts, CONFLICT_START_search.
  destruct (read_text path) as [content | e]; simpl.
  - now rewrite (proj1 (search_from_lines content)).
  - destruct e; reflexivity.
Qed.

(** ** The response decoder *)

Lemma startswith_app (prefix rest : str) :
  startswith (prefix ++ rest) prefix = true.
Proof.
  induction prefix as [|p ps IH]; simpl; [reflexivity|].
  now rewrite N.eqb_refl, IH.
Qed.

Lemma startswith_spec (s prefix : str) :
  startswith s prefix = true <-> exists rest, s = prefix ++ rest.
Proof.
  split.
  - revert s. induction prefix as [|p ps IH]; intros s H.
    + now exists s.
    + destruct s as [|c cs]; [discriminate|]. simpl in H.
      apply andb_true_iff in H. destruct H as [Hc Hcs].
      apply N.eqb_eq in Hc. subst c.
      destruct (IH cs Hcs) as [rest ->]. now exists rest.
  - intros [rest ->]. apply startswith_app.
Qed.

Lemma skipn_prefix (prefix rest : str) :
  skipn (List.length prefix) (prefix ++ rest) = rest.
Proof. induction prefix; simpl; auto. Qed.

(** The two prefixes exclude each other. *)
Lemma cannot_resolve_is_not_resolved (rest : str) :
  startswith (CANNOT_RESOLVE ++ rest) RESOLVED = false.
Proof. reflexivity. Qed.

(** C9 as stated fails: behind [CANNOT_RESOLVE:] the explanation is not
    the remainder of the text but the remainder stripped. *)
Lemma explanation_is_stripped :
  exists rest,
    strip cannot_input = CANNOT_RESOLVE ++ rest /\
    rest = LF :: lit "no" /\
    explanation (_parse_response cannot_input) = lit "no" /\
    explanation (_parse_response cannot_input) <> rest.
Proof.
  exists (LF :: lit "no"). repeat split. discriminate.
Qed.

(** C9, as the code has it: with [t] the stripped response text, a [t]
    that starts with [RESOLVED:] gives resolved = true with the remainder,
    stripped, as content; a [t] that starts with [CANNOT_RESOLVE:] gives
    resolved = false with empty content and the remainder, stripped, as
    explanation; every other [t] gives resolved = true with [t] as
    content. *)
Theorem parse_response_cases (text : str) :
  (forall rest,
      strip text = RESOLVED ++ rest ->
      resolved (_parse_response text) = true /\
      content (_parse_response text) = strip rest) /\
  (forall rest,
      strip text = CANNOT_RESOLVE ++ rest ->
      resolved (_parse_response text) = false /\
      content (_parse_response text) = [] /\
      explanation (_parse_response text) = strip rest) /\
  ((forall rest, strip text <> RESOLVED ++ rest) ->
   (forall rest, strip text <> CANNOT_RESOLVE ++ rest) ->
   resolved (_parse_response text) = true /\
   content (_parse_response text) = strip text).
Proof.
  unfold _parse_response. split; [|split].
  - intros rest E. rewrite E, startswith_app, skipn_prefix. now split.
  - intros rest E.
    rewrite E, cannot_resolve_is_not_resolved, startswith_app, skipn_prefix.
    now repeat split.
  - intros HR HC.
    destruct (startswith (strip text) RESOLVED) eqn:ER.
    { apply startswith_spec in ER. destruct ER as [rest ER].
      now destruct (HR rest). }
    destruct (startswith (strip text) CANNOT_RESOLVE) eqn:EC.
    { apply startswith_spec in EC. destruct EC as [rest EC].
      now destruct (HC rest). }
    now split.
Qed.

Lemma parse_response_cases_witness :
  strip cannot_input = CANNOT_RESOLVE ++ (LF :: lit "no") /\
  resolved (_parse_response cannot_input) = false /\
  content (_parse_response cannot_input) = [] /\
  explanation (_parse_response cannot_input) = strip (LF :: lit "no").
Proof.
  split; [reflexivity|].
  apply (proj1 (proj2 (parse_response_cases cannot_input))).
  reflexivity.
Defined.

(** C10: in every block returned by [parse_conflicts] the closing line is
    at least two lines below the opening line: [end >= start + 2]. *)
Theorem block_spans_three_lines (content : str) (b : ConflictBlock) :
  In b (parse_conflicts content) -> start b + 2 <= end_ b.
Proof.
  intros Hin.
  destruct (parse_conflicts_block_at content b Hin)
    as (pre & op & os & sep & ts & cl & post & _ & _ & _ & _ & _ & _ & ->).
  simpl. lia.
Qed.

Lemma block_spans_three_lines_witness :
  In scenario_A_block (parse_conflicts scenario_A) /\
  start scenario_A_block + 2 <= end_ scenario_A_block.
Proof.
  split.
  - left. reflexivity.
  - apply (block_spans_three_lines scenario_A). left. reflexivity.
Defined.

(** * Further properties of the scanner *)

Opaque MARK_OPEN MARK_SEP MARK_CLOSE.

(** The blocks found so far are a prefix of what the loops return. *)
Lemma scan_acc :
  forall rest,
    (forall cs i, seek_open cs i rest = cs ++ seek_open [] i rest) /\
    (forall cs sl ol bl os i,
        collect_ours cs sl ol bl os i rest
        = cs ++ collect_ours [] sl ol bl os i rest) /\
    (forall cs sl ol bl os ts i,
        collect_theirs cs sl ol bl os ts i rest
        = cs ++ collect_theirs [] sl ol bl os ts i rest).
Proof.
  induction rest as [|line rest (IHseek & IHours & IHtheirs)].
  - repeat split; intros; simpl; now rewrite app_nil_r.
  - split; [|split]; intros; simpl; rewrite negb_if.
    + destruct (startswith line MARK_OPEN); [apply IHours | apply IHseek].
    + destruct (startswith line MARK_SEP); [apply IHtheirs | apply IHours].
    + destruct (startswith line MARK_CLOSE); [|apply IHtheirs].
      rewrite (IHseek (cs ++ _)), (IHseek [_]).
      now rewrite <- app_assoc.
Qed.

(** Scanning from a later line number gives the same blocks with their
    line numbers moved. *)
Lemma scan_shift (d : nat) :
  forall rest,
    (forall cs i,
        map (shift_block d) (seek_open cs i rest)
        = seek_open (map (shift_block d) cs) (i + d) rest) /\
    (forall cs sl ol bl os i,
        map (shift_block d) (collect_ours cs sl ol bl os i rest)
        = collect_ours (map (shift_block d) cs) (sl + d) ol bl os
            (i + d) rest) /\
    (forall cs sl ol bl os ts i,
        map (shift_block d) (collect_theirs cs sl ol bl os ts i rest)
        = collect_theirs (map (shift_block d) cs) (sl + d) ol bl os ts
            (i + d) rest).
Proof.
  induction rest as [|line rest (IHseek & IHours & IHtheirs)].
  - repeat split; intros; reflexivity.
  - split; [|split]; intros; simpl; rewrite !negb_if.
    + destruct (startswith line MARK_OPEN).
      * rewrite IHours.
        replace (i + 1 + d) with (i + d + 1) by lia. reflexivity.
      * rewrite IHseek.
        replace (i + 1 + d) with (i + d + 1) by lia. reflexivity.
    + destruct (startswith line MARK_SEP).
      * rewrite IHtheirs.
        replace (i + 1 + d) with (i + d + 1) by lia. reflexivity.
      * rewrite IHours.
        replace (i + 1 + d) with (i + d + 1) by lia. reflexivity.
    + destruct (startswith line MARK_CLOSE).
      * rewrite IHseek, map_app. simpl. unfold shift_block at 2. simpl.
        replace (i + 1 + d) with (i + d + 1) by lia. reflexivity.
      * rewrite IHtheirs.
        replace (i + 1 + d) with (i + d + 1) by lia. reflexivity.
Qed.

(** Every block takes three lines of its own: three times the number of
    blocks found never exceeds the number of lines read. *)
Lemma scan_count :
  forall rest,
    (forall cs i,
        3 * List.length cs <= i ->
        3 * List.length (seek_open cs i rest) <= i + List.length rest) /\
    (forall cs sl ol bl os i,
        3 * List.length cs + 1 <= i ->
        3 * List.length (collect_ours cs sl ol bl os i rest)
        <= i + List.length rest) /\
    (forall cs sl ol bl os ts i,
        3 * List.length cs + 2 <= i ->
        3 * List.length (collect_theirs cs sl ol bl os ts i rest)
        <= i + List.length rest).
Proof.
  induction rest as [|line rest (IHseek & IHours & IHtheirs)].
  - repeat split; intros; simpl; lia.
  - split; [|split]; intros; simpl; rewrite negb_if.
    + destruct (startswith line MARK_OPEN).
      * etransitivity; [apply IHours|]; lia.
      * etransitivity; [apply IHseek|]; lia.
    + destruct (startswith line MARK_SEP).
      * etransitivity; [apply IHtheirs|]; lia.
      * etransitivity; [apply IHours|]; lia.
    + destruct (startswith line MARK_CLOSE).
      * etransitivity; [apply IHseek|]; [|lia].
        rewrite length_app. simpl. lia.
      * etransitivity; [apply IHtheirs|]; lia.
Qed.

Transparent MARK_OPEN MARK_SEP MARK_CLOSE.

Ltac list_eq := simpl; repeat (rewrite <- app_assoc; simpl); reflexivity.
Ltac list_len := simpl; repeat (rewrite length_app; simpl); lia.

Lemma slice_middle {A} (a m b : list A) (lo hi : nat) :
  lo = List.length a -> hi = List.length a + List.length m ->
  slice lo hi (a ++ m ++ b) = m.
Proof.
  intros -> ->. unfold slice.
  replace (List.length a + List.length m - List.length a)
    with (List.length m) by lia.
  rewrite skipn_app, Nat.sub_diag, skipn_all. simpl.
  rewrite firstn_app, Nat.sub_diag, firstn_all. simpl.
  now rewrite app_nil_r.
Qed.

(** X1: a text none of whose lines starts with the opening token gives no
    block. *)
Theorem no_opening_line_no_block (content : str) :
  Forall (fun l => is_open l = false) (splitlines content) ->
  parse_conflicts content = [].
Proof.
  intros H. unfold parse_conflicts.
  rewrite <- (app_nil_r (splitlines content)).
  now rewrite (seek_open_skip _ H).
Qed.

Lemma no_opening_line_no_block_witness : parse_conflicts clean_text = [].
Proof.
  apply (no_opening_line_no_block clean_text). repeat constructor.
Defined.

(** X2: the line numbers of a block are line numbers of the text: [start]
    is at least 1 and [end] at most the number of lines. *)
Theorem block_line_numbers_in_range (content : str) (b : ConflictBlock) :
  In b (parse_conflicts content) ->
  1 <= start b /\ end_ b <= List.length (splitlines content).
Proof.
  intros Hin.
  destruct (parse_conflicts_block_at content b Hin)
    as (pre & op & os & sep & ts & cl & post & E & _ & _ & _ & _ & _ & ->).
  rewrite E. simpl. split; [lia | list_len].
Qed.

Lemma block_line_numbers_in_range_witness :
  In scenario_A_block (parse_conflicts scenario_A) /\
  1 <= start scenario_A_block /\
  end_ scenario_A_block <= List.length (splitlines scenario_A).
Proof.
  split.
  - left. reflexivity.
  - apply (block_line_numbers_in_range scenario_A). left. reflexivity.
Defined.

(** X3: [raw] is the concatenation of the lines [start] to [end] of the
    text, both included. *)
Theorem raw_is_lines_start_to_end (content : str) (b : ConflictBlock) :
  In b (parse_conflicts content) ->
  raw b = join (slice (start b - 1) (end_ b) (splitlines content)).
Proof.
  intros Hin.
  destruct (parse_conflicts_block_at content b Hin)
    as (pre & op & os & sep & ts & cl & post & E & _ & _ & _ & _ & _ & ->).
  rewrite E. cbn [raw start end_]. f_equal. symmetry.
  replace (pre ++ op :: os ++ sep :: ts ++ cl :: post)
    with (pre ++ (op :: os ++ sep :: ts ++ [cl]) ++ post) by list_eq.
  apply slice_middle; [lia | list_len].
Qed.

Lemma raw_is_lines_start_to_end_witness :
  In scenario_A_block (parse_conflicts scenario_A) /\
  raw scenario_A_block
  = join (slice (start scenario_A_block - 1) (end_ scenario_A_block)
            (splitlines scenario_A)).
Proof.
  split.
  - left. reflexivity.
  - apply (raw_is_lines_start_to_end scenario_A). left. reflexivity.
Defined.

(** X4: the block runs from an opening line to a closing line with a
    separator line between them, at line [k]: the line at [start] starts
    with the opening token, line [k] is the first line after [start] that
    starts with the separator token, the line at [end] is the first line
    after [k] that starts with the closing token, [ours] is the
    concatenation of the lines between [start] and [k] and [theirs] of
    those between [k] and [end]. *)
Theorem sides_are_lines_between_markers (content : str) (b : ConflictBlock) :
  In b (parse_conflicts content) ->
  exists k op sep cl,
    start b < k /\ k < end_ b /\
    nth_error (splitlines content) (start b - 1) = Some op /\
    is_open op = true /\
    nth_error (splitlines content) (k - 1) = Some sep /\
    is_sep sep = true /\
    nth_error (splitlines content) (end_ b - 1) = Some cl /\
    is_close cl = true /\
    Forall (fun l => is_sep l = false)
      (slice (start b) (k - 1) (splitlines content)) /\
    Forall (fun l => is_close l = false)
      (slice k (end_ b - 1) (splitlines content)) /\
    ours b = join (slice (start b) (k - 1) (splitlines content)) /\
    theirs b = join (slice k (end_ b - 1) (splitlines content)).
Proof.
  intros Hin.
  destruct (parse_conflicts_block_at content b Hin)
    as (pre & op & os & sep & ts & cl & post
        & E & Hop & Hos & Hsep & Hts & Hcl & ->).
  exists (List.length pre + List.length os + 2), op, sep, cl.
  rewrite E. cbn [ours theirs start end_].
  assert (Eos : slice (List.length pre + 1)
                  (List.length pre + List.length os + 2 - 1)
                  (pre ++ op :: os ++ sep :: ts ++ cl :: post) = os).
  { replace (pre ++ op :: os ++ sep :: ts ++ cl :: post)
      with ((pre ++ [op]) ++ os ++ sep :: ts ++ cl :: post) by list_eq.
    apply slice_middle; list_len. }
  assert (Ets : slice (List.length pre + List.length os + 2)
                  (List.length pre + List.length os + List.length ts + 3 - 1)
                  (pre ++ op :: os ++ sep :: ts ++ cl :: post) = ts).
  { replace (pre ++ op :: os ++ sep :: ts ++ cl :: post)
      with ((pre ++ op :: os ++ [sep]) ++ ts ++ cl :: post) by list_eq.
    apply slice_middle; list_len. }
  rewrite Eos, Ets.
  split; [lia|]. split; [lia|].
  split; [|split; [exact Hop|]].
  { replace (List.length pre + 1 - 1) with (List.length pre) by lia.
    apply nth_error_middle. }
  split; [|split; [exact Hsep|]].
  { replace (pre ++ op :: os ++ sep :: ts ++ cl :: post)
      with ((pre ++ op :: os) ++ sep :: ts ++ cl :: post) by list_eq.
    replace (List.length pre + List.length os + 2 - 1)
      with (List.length (pre ++ op :: os)) by list_len.
    apply nth_error_middle. }
  split; [|split; [exact Hcl|auto]].
  replace (pre ++ op :: os ++ sep :: ts ++ cl :: post)
    with ((pre ++ op :: os ++ sep :: ts) ++ cl :: post) by list_eq.
  replace (List.length pre + List.length os + List.length ts + 3 - 1)
    with (List.length (pre ++ op :: os ++ sep :: ts)) by list_len.
  apply nth_error_middle.
Qed.

Lemma sides_are_lines_between_markers_witness :
  In scenario_A_block (parse_conflicts scenario_A) /\
  exists k op sep cl,
    start scenario_A_block < k /\ k < end_ scenario_A_block /\
    nth_error (splitlines scenario_A) (start scenario_A_block - 1)
    = Some op /\
    is_open op = true /\
    nth_error (splitlines scenario_A) (k - 1) = Some sep /\
    is_sep sep = true /\
    nth_error (splitlines scenario_A) (end_ scenario_A_block - 1)
    = Some cl /\
    is_close cl = true /\
    Forall (fun l => is_sep l = false)
      (slice (start scenario_A_block) (k - 1) (splitlines scenario_A)) /\
    Forall (fun l => is_close l = false)
      (slice k (end_ scenario_A_block - 1) (splitlines scenario_A)) /\
    ours scenario_A_block
    = join (slice (start scenario_A_block) (k - 1) (splitlines scenario_A)) /\
    theirs scenario_A_block
    = join (slice k (end_ scenario_A_block - 1) (splitlines scenario_A)).
Proof.
  split.
  - left. reflexivity.
  - apply (sides_are_lines_between_markers scenario_A). left. reflexivity.
Defined.

(** X5: the lines at [start] and at [end] are the marker lines of the
    block: the first starts with the opening token, the second with the
    closing token, and the labels are these lines from index 8 on with
    trailing carriage returns and line feeds removed. *)
Theorem block_marker_lines (content : str) (b : ConflictBlock) :
  In b (parse_conflicts content) ->
  exists op cl,
    nth_error (splitlines content) (start b - 1) = Some op /\
    is_open op = true /\
    ours_label b = label_of op /\
    nth_error (splitlines content) (end_ b - 1) = Some cl /\
    is_close cl = true /\
    theirs_label b = label_of cl.
Proof.
  intros Hin.
  destruct (parse_conflicts_block_at content b Hin)
    as (pre & op & os & sep & ts & cl & post
        & E & Hop & _ & _ & _ & Hcl & ->).
  exists op, cl. rewrite E. cbn [ours_label theirs_label start end_].
  split; [|split; [exact Hop|split; [reflexivity|split; [|now split]]]].
  - replace (List.length pre + 1 - 1) with (List.length pre) by lia.
    apply nth_error_middle.
  - replace (pre ++ op :: os ++ sep :: ts ++ cl :: post)
      with ((pre ++ op :: os ++ sep :: ts) ++ cl :: post) by list_eq.
    replace (List.length pre + List.length os + List.length ts + 3 - 1)
      with (List.length (pre ++ op :: os ++ sep :: ts)) by list_len.
    apply nth_error_middle.
Qed.

Lemma block_marker_lines_witness :
  In scenario_A_block (parse_conflicts scenario_A) /\
  exists op cl,
    nth_error (splitlines scenario_A) (start scenario_A_block - 1) = Some op /\
    is_open op = true /\
    ours_label scenario_A_block = label_of op /\
    nth_error (splitlines scenario_A) (end_ scenario_A_block - 1) = Some cl /\
    is_close cl = true /\
    theirs_label scenario_A_block = label_of cl.
Proof.
  split.
  - left. reflexivity.
  - apply (block_marker_lines scenario_A). left. reflexivity.
Defined.

(** X6: a text of [n] lines holds at most [n / 3] blocks. *)
Theorem block_count_bound (content : str) :
  3 * List.length (parse_conflicts content)
  <= List.length (splitlines content).
Proof.
  apply (proj1 (scan_count (splitlines content)) [] 0). simpl. lia.
Qed.

(** X7: the first complete sequence of an opening line, a separator line
    and a closing line is found, and behind it the scan goes on as on a
    text of its own: when the lines of a text are lines [pre] that open
    nothing, an opening line, lines [os] without separator, a separator,
    lines [ts] without closing line, a closing line and lines [post], the
    result is the block of these lines followed by the blocks of the text
    [post], their line numbers moved by the number of lines before. *)
Theorem first_block_then_rest (content : str) (pre : list str) (op : str)
    (os : list str) (sep : str) (ts : list str) (cl : str)
    (post : list str) :
  splitlines content = pre ++ op :: os ++ sep :: ts ++ cl :: post ->
  Forall (fun l => is_open l = false) pre ->
  is_open op = true ->
  Forall (fun l => is_sep l = false) os ->
  is_sep sep = true ->
  Forall (fun l => is_close l = false) ts ->
  is_close cl = true ->
  parse_conflicts content
  = block_of (List.length pre) op os sep ts cl
    :: map (shift_block
              (List.length pre + List.length os + List.length ts + 3))
         (parse_conflicts (join post)).
Proof.
  intros E Hpre Hop Hos Hsep Hts Hcl.
  assert (Hpost : splitlines (join post) = post).
  { apply splitlines_join.
    apply (lines_of_suffix (pre ++ op :: os ++ sep :: ts ++ [cl])).
    replace ((pre ++ op :: os ++ sep :: ts ++ [cl]) ++ post)
      with (pre ++ op :: os ++ sep :: ts ++ cl :: post) by list_eq.
    rewrite <- E. apply lines_of_splitlines. }
  unfold parse_conflicts. rewrite Hpost, E.
  rewrite (seek_open_skip pre Hpre).
  rewrite (seek_open_block op os sep ts cl Hop Hos Hsep Hts Hcl).
  rewrite (proj1 (scan_acc post)). simpl. f_equal.
  now rewrite (proj1 (scan_shift _ post)).
Qed.

Lemma first_block_then_rest_witness :
  parse_conflicts two_blocks
  = block_of 0 (unlines ["<<<<<<< HEAD"]%string) [unlines ["x = 1"]%string]
      (unlines ["======="]%string) [unlines ["x = 2"]%string]
      (unlines [">>>>>>> other"]%string)
    :: map (shift_block 5)
         (parse_conflicts
            (join [unlines [""]%string; unlines ["<<<<<<< HEAD"]%string;
                   unlines ["y = 10"]%string; unlines ["======="]%string;
                   unlines ["y = 20"]%string;
                   unlines [">>>>>>> other"]%string])).
Proof.
  apply (first_block_then_rest two_blocks []
           (unlines ["<<<<<<< HEAD"]%string) [unlines ["x = 1"]%string]
           (unlines ["======="]%string) [unlines ["x = 2"]%string]
           (unlines [">>>>>>> other"]%string)).
  - reflexivity.
  - constructor.
  - reflexivity.
  - repeat constructor.
  - reflexivity.
  - repeat constructor.
  - reflexivity.
Defined.

(** X8: lines in front that open nothing only move the line numbers: the
    blocks of a text whose first lines [pre] do not start with the opening
    token are the blocks of the text behind them, moved by the number of
    these lines. *)
Theorem leading_lines_shift (content : str) (pre rest : list str) :
  splitlines content = pre ++ rest ->
  Forall (fun l => is_open l = false) pre ->
  parse_conflicts content
  = map (shift_block (List.length pre)) (parse_conflicts (join rest)).
Proof.
  intros E Hpre.
  assert (Hrest : splitlines (join rest) = rest).
  { apply splitlines_join. apply (lines_of_suffix pre).
    rewrite <- E. apply lines_of_splitlines. }
  unfold parse_conflicts. rewrite Hrest, E.
  rewrite (seek_open_skip pre Hpre).
  now rewrite (proj1 (scan_shift _ rest)).
Qed.

Lemma leading_lines_shift_witness :
  parse_conflicts simple_conflict
  = map (shift_block 1)
      (parse_conflicts
         (join [unlines ["<<<<<<< HEAD"]%string;
                unlines ["    return 1"]%string;
                unlines ["======="]%string;
                unlines ["    return 2"]%string;
                unlines [">>>>>>> feature/friendly-greeting"]%string])).
Proof.
  apply (leading_lines_shift simple_conflict
           [unlines ["def greet(name):"]%string]).
  - reflexivity.
  - repeat constructor.
Defined.

(** ** Labels *)

Lemma dropwhile_all (p : char -> bool) (a b : str) :
  Forall (fun c => p c = true) a -> dropwhile p (a ++ b) = dropwhile p b.
Proof.
  induction 1 as [|c a Hc _ IH]; simpl; [reflexivity|]. now rewrite Hc.
Qed.

Lemma dropwhile_none (p : char -> bool) (s : str) :
  match s with c :: _ => p c = false | [] => True end ->
  dropwhile p s = s.
Proof. destruct s as [|c s]; simpl; [reflexivity|]. now intros ->. Qed.

(** Stripping on the right removes a trailing run of characters of the
    set and stops at a text that holds none of them. *)
Lemma rstrip_split (chars w v : str) :
  Forall (fun c => mem c chars = false) w ->
  Forall (fun c => mem c chars = true) v ->
  rstrip chars (w ++ v) = w.
Proof.
  intros Hw Hv. unfold rstrip. rewrite rev_app_distr.
  rewrite dropwhile_all by now apply Forall_rev.
  rewrite dropwhile_none; [apply rev_involutive|].
  apply Forall_rev in Hw. destruct (rev w); [exact I|].
  now inversion Hw.
Qed.

Lemma not_linebreak_not_crlf (c : char) :
  is_linebreak c = false -> mem c [CR; LF] = false.
Proof.
  intros H. unfold mem. simpl.
  destruct (N.eqb_spec c CR) as [-> | _]; [discriminate|].
  destruct (N.eqb_spec c LF) as [-> | _]; [discriminate|].
  reflexivity.
Qed.

Lemma lines_of_In (ls : list str) (l : str) :
  lines_of ls -> In l ls ->
  exists body t,
    l = body ++ t /\
    Forall (fun c => is_linebreak c = false) body /\
    (t = [] \/ terminator t).
Proof.
  induction 1 as [|l0 Hne Hl0|body t ls Hbody Ht _ _ IH]; intros Hin.
  - destruct Hin.
  - destruct Hin as [<- | []]. exists l0, []. rewrite app_nil_r. auto.
  - destruct Hin as [<- | Hin]; [|auto].
    exists body, t. auto.
Qed.

Lemma label_of_line_no_crlf (body t : str) :
  Forall (fun c => is_linebreak c = false) body ->
  t = [] \/ terminator t ->
  Forall (fun c => mem c [CR; LF] = false) (label_of (body ++ t)).
Proof.
  intros Hbody Ht. unfold label_of. rewrite skipn_app.
  assert (Hb : Forall (fun c => mem c [CR; LF] = false) (skipn 8 body)).
  { rewrite <- (firstn_skipn 8 body) in Hbody.
    apply Forall_app in Hbody. destruct Hbody as [_ Hbody].
    eapply Forall_impl; [|exact Hbody]. apply not_linebreak_not_crlf. }
  set (w := skipn 8 body) in *. set (n := 8 - List.length body).
  clearbody w n.
  assert (Hin : forall v, Forall (fun c => mem c [CR; LF] = true) v ->
                  Forall (fun c => mem c [CR; LF] = false)
                    (rstrip [CR; LF] (w ++ v))).
  { intros v Hv. now rewrite rstrip_split. }
  assert (Hout : forall c, mem c [CR; LF] = false ->
                   Forall (fun c => mem c [CR; LF] = false)
                     (rstrip [CR; LF] (w ++ [c]))).
  { intros c Hc. rewrite <- (app_nil_r (w ++ [c])).
    rewrite rstrip_split; [|now apply Forall_snoc|constructor].
    now apply Forall_snoc. }
  destruct Ht as [-> | [|c Hc]].
  - rewrite skipn_nil. apply Hin. constructor.
  - destruct n as [|[|n]]; cbn [skipn]; rewrite ?skipn_nil; apply Hin;
      repeat constructor.
  - destruct n as [|n]; cbn [skipn].
    + destruct (mem c [CR; LF]) eqn:Hm.
      * apply Hin. now repeat constructor.
      * now apply Hout.
    + rewrite skipn_nil. apply Hin. constructor.
Qed.

(** X9: the labels of a block hold neither a carriage return nor a line
    feed. *)
Theorem labels_hold_no_cr_lf (content : str) (b : ConflictBlock) :
  In b (parse_conflicts content) ->
  Forall (fun c => c <> CR /\ c <> LF) (ours_label b) /\
  Forall (fun c => c <> CR /\ c <> LF) (theirs_label b).
Proof.
  intros Hin.
  assert (Hmem : forall c, mem c [CR; LF] = false -> c <> CR /\ c <> LF).
  { intros c H. unfold mem in H. simpl in H.
    destruct (N.eqb_spec c CR); [discriminate|].
    destruct (N.eqb_spec c LF); [discriminate|]. now split. }
  destruct (parse_conflicts_block_at content b Hin)
    as (pre & op & os & sep & ts & cl & post & E & _ & _ & _ & _ & _ & ->).
  pose proof (lines_of_splitlines content) as Hlines. rewrite E in Hlines.
  cbn [ours_label theirs_label]. split.
  - destruct (lines_of_In _ op Hlines) as (body & t & -> & Hbody & Ht).
    { apply in_or_app. right. now left. }
    eapply Forall_impl; [exact Hmem|]. now apply label_of_line_no_crlf.
  - destruct (lines_of_In _ cl Hlines) as (body & t & -> & Hbody & Ht).
    { apply in_or_app. right. right. apply in_or_app. right. right.
      apply in_or_app. right. now left. }
    eapply Forall_impl; [exact Hmem|]. now apply label_of_line_no_crlf.
Qed.

Lemma labels_hold_no_cr_lf_witness :
  In scenario_A_block (parse_conflicts scenario_A) /\
  Forall (fun c => c <> CR /\ c <> LF) (ours_label scenario_A_block) /\
  Forall (fun c => c <> CR /\ c <> LF) (theirs_label scenario_A_block).
Proof.
  split.
  - left. reflexivity.
  - apply (labels_hold_no_cr_lf scenario_A). left. reflexivity.
Defined.

(** ** The presence check and the scanner *)

Lemma splitlines_from_plain_prefix (p : str) :
  Forall (fun c => is_linebreak c = false) p ->
  forall cur rest,
    splitlines_from cur (p ++ rest) = splitlines_from (cur ++ p) rest.
Proof.
  induction 1 as [|c p Hc _ IH]; intros cur rest; simpl.
  - now rewrite app_nil_r.
  - rewrite Hc, IH. now rewrite <- app_assoc.
Qed.

(** The line being read is the start of the first line returned. *)
Lemma splitlines_from_head (s : str) :
  forall cur,
    cur <> [] ->
    exists l ls, splitlines_from cur s = (cur ++ l) :: ls.
Proof.
  induction s as [|c rest IH]; intros cur Hcur; simpl.
  - exists [], []. rewrite app_nil_r.
    destruct cur; [contradiction | reflexivity].
  - destruct (is_linebreak c).
    + destruct (N.eqb c CR).
      * destruct rest as [|c' rest']; [now eexists; eexists|].
        destruct (N.eqb c' LF); now eexists; eexists.
      * now eexists; eexists.
    + destruct (IH (cur ++ [c])) as (l & ls & E).
      { destruct cur; discriminate. }
      exists (c :: l), ls. rewrite E. now rewrite <- app_assoc.
Qed.

Lemma token_is_plain :
  Forall (fun c => is_linebreak c = false) CONFLICT_START_TOKEN.
Proof. repeat constructor. Qed.

(** Where the pattern matches, a line in the sense of [splitlines] starts:
    the search finds the pattern only if one of the lines the scanner
    reads starts with the token and a space. *)
Lemma search_from_opening_line (s : str) :
  (search_from true s = true ->
   exists l, In l (splitlines_from [] s) /\
             startswith l CONFLICT_START_TOKEN = true) /\
  (forall cur,
      search_from false s = true ->
      exists l, In l (splitlines_from cur s) /\
                startswith l CONFLICT_START_TOKEN = true).
Proof.
  induction s as [s IH] using splitlines_from_length_ind.
  destruct s as [|c rest]; [split; [|intros cur]; discriminate|].
  assert (Hfalse : forall cur,
             search_from false (c :: rest) = true ->
             exists l, In l (splitlines_from cur (c :: rest)) /\
                       startswith l CONFLICT_START_TOKEN = true).
  { intros cur H. cbn [search_from andb orb] in H. cbn [splitlines_from].
    destruct (N.eqb_spec c LF) as [-> | Hc].
    - change (is_linebreak LF) with true. change (N.eqb LF CR) with false.
      cbv iota.
      destruct (proj1 (IH rest ltac:(simpl; lia)) H) as (l & Hin & Hl).
      exists l. split; [now right | exact Hl].
    - destruct (is_linebreak c).
      + destruct (N.eqb c CR).
        * destruct rest as [|c' rest']; [discriminate|].
          destruct (N.eqb_spec c' LF) as [-> | Hc'].
          -- cbn [search_from andb orb] in H.
             change (N.eqb LF LF) with true in H.
             destruct (proj1 (IH rest' ltac:(simpl; lia)) H)
               as (l & Hin & Hl).
             exists l. split; [now right | exact Hl].
          -- destruct (proj2 (IH (c' :: rest') ltac:(simpl; lia)) [] H)
               as (l & Hin & Hl).
             exists l. split; [now right | exact Hl].
        * destruct (proj2 (IH rest ltac:(simpl; lia)) [] H)
            as (l & Hin & Hl).
          exists l. split; [now right | exact Hl].
      + exact (proj2 (IH rest ltac:(simpl; lia)) (cur ++ [c]) H). }
  split; [|exact Hfalse].
  intros H. cbn [search_from andb] in H.
  apply orb_true_iff in H. destruct H as [H | H].
  - apply startswith_spec in H. destruct H as [r ->].
    rewrite (splitlines_from_plain_prefix _ token_is_plain).
    destruct (splitlines_from_head r ([] ++ CONFLICT_START_TOKEN))
      as (l & ls & E); [discriminate|].
    rewrite E. exists (CONFLICT_START_TOKEN ++ l).
    split; [now left|].
    apply (startswith_app CONFLICT_START_TOKEN).
  - apply Hfalse. exact H.
Qed.

(** X10: when [has_conflicts] answers true, the file was read and one of
    the lines of its content, as the scanner cuts them, starts with the
    opening token and a space; the scanner meets an opening line there. *)
Theorem has_conflicts_true_opening_line (read_text : FileSystem)
    (path : Path) :
  has_conflicts read_text path = Return true ->
  exists content l,
    read_text path = Return content /\
    In l (splitlines content) /\
    startswith l CONFLICT_START_TOKEN = true /\
    is_open l = true.
Proof.
  unfold has_conflicts, CONFLICT_START_search.
  destruct (read_text path) as [content | e]; simpl;
    [|destruct e; discriminate].
  intros H. injection H as H.
  destruct (proj1 (search_from_opening_line content) H) as (l & Hin & Hl).
  exists content, l. repeat split; auto.
  apply startswith_spec in Hl. destruct Hl as [r ->].
  change CONFLICT_START_TOKEN with (MARK_OPEN ++ [SPACE]).
  rewrite <- app_assoc. apply startswith_app.
Qed.

Lemma has_conflicts_true_opening_line_witness :
  exists content l,
    (fun _ : Path => Return scenario_A) (lit "f.py") = Return content /\
    In l (splitlines content) /\
    startswith l CONFLICT_START_TOKEN = true /\
    is_open l = true.
Proof.
  apply (has_conflicts_true_opening_line (fun _ => Return scenario_A)
           (lit "f.py")).
  reflexivity.
Defined.

(** * Further properties of the response decoder *)

Lemma dropwhile_split (p : char -> bool) (s : str) :
  exists u, s = u ++ dropwhile p s /\ Forall (fun c => p c = true) u.
Proof.
  induction s as [|c s (u & E & Hu)]; simpl.
  - now exists [].
  - destruct (p c) eqn:Hc.
    + exists (c :: u). simpl. split; [now f_equal | now constructor].
    + now exists [].
Qed.

Lemma dropwhile_head (p : char -> bool) (s : str) :
  match dropwhile p s with c :: _ => p c = false | [] => True end.
Proof.
  induction s as [|c s IH]; simpl; [exact I|].
  destruct (p c) eqn:Hc; [exact IH | exact Hc].
Qed.

Lemma strip_core (u m v : str) :
  Forall (fun c => is_space c = true) u ->
  Forall (fun c => is_space c = true) v ->
  is_core m ->
  strip (u ++ m ++ v) = m.
Proof.
  intros Hu Hv [Hhead Hlast]. unfold strip.
  rewrite (dropwhile_all _ u) by exact Hu.
  destruct m as [|h m'].
  - rewrite <- (app_nil_r ([] ++ v)). cbn [app].
    rewrite (dropwhile_all _ v) by exact Hv. reflexivity.
  - rewrite (dropwhile_none _ ((h :: m') ++ v)) by exact Hhead.
    rewrite rev_app_distr.
    rewrite dropwhile_all by now apply Forall_rev.
    rewrite dropwhile_none by exact Hlast.
    apply rev_involutive.
Qed.

Lemma strip_decompose (s : str) :
  exists u m v,
    s = u ++ m ++ v /\
    Forall (fun c => is_space c = true) u /\
    Forall (fun c => is_space c = true) v /\
    is_core m.
Proof.
  destruct (dropwhile_split is_space s) as (u & Es & Hu).
  pose proof (dropwhile_head is_space s) as Ha.
  set (a := dropwhile is_space s) in *.
  destruct (dropwhile_split is_space (rev a)) as (w & Ea & Hw).
  pose proof (dropwhile_head is_space (rev a)) as Hd.
  set (d := dropwhile is_space (rev a)) in *.
  assert (Ea' : a = rev d ++ rev w).
  { rewrite <- (rev_involutive a), Ea. apply rev_app_distr. }
  exists u, (rev d), (rev w). repeat split.
  - now rewrite <- Ea'.
  - exact Hu.
  - now apply Forall_rev.
  - rewrite Ea' in Ha. destruct (rev d); [exact I | exact Ha].
  - now rewrite rev_involutive.
Qed.

(** X11: the content of a decoded response has no white space at its ends,
    and it is empty unless the response counts as resolved. *)
Theorem parse_response_content_stripped (text : str) :
  strip (content (_parse_response text)) = content (_parse_response text) /\
  (resolved (_parse_response text) = true \/
   content (_parse_response text) = []).
Proof.
  assert (Hidem : forall s, strip (strip s) = strip s).
  { intros s. destruct (strip_decompose s) as (u & m & v & -> & Hu & Hv & Hm).
    rewrite (strip_core u m v Hu Hv Hm).
    apply (strip_core [] m [] (Forall_nil _)) in Hm; [|constructor].
    now rewrite app_nil_r in Hm. }
  unfold _parse_response.
  destruct (startswith (strip text) RESOLVED); [split; [apply Hidem | now left]|].
  destruct (startswith (strip text) CANNOT_RESOLVE);
    split; [reflexivity | now right | apply Hidem | now left].
Qed.

(** X12: white space around a response does not change how it is
    decoded. *)
Theorem parse_response_ignores_surrounding_space (ws1 text ws2 : str) :
  Forall (fun c => is_space c = true) ws1 ->
  Forall (fun c => is_space c = true) ws2 ->
  _parse_response (ws1 ++ text ++ ws2) = _parse_response text.
Proof.
  intros H1 H2.
  assert (E : strip (ws1 ++ text ++ ws2) = strip text).
  { destruct (strip_decompose text) as (u & m & v & -> & Hu & Hv & Hm).
    rewrite (strip_core u m v Hu Hv Hm).
    replace (ws1 ++ (u ++ m ++ v) ++ ws2) with ((ws1 ++ u) ++ m ++ (v ++ ws2))
      by (now rewrite <- !app_assoc).
    apply strip_core; [now apply Forall_app | now apply Forall_app | exact Hm]. }
  unfold _parse_response. now rewrite E.
Qed.

Lemma parse_response_ignores_surrounding_space_witness :
  _parse_response ([LF; SPACE] ++ cannot_input ++ [SPACE; LF])
  = _parse_response cannot_input.
Proof.
  apply (parse_response_ignores_surrounding_space [LF; SPACE] cannot_input
           [SPACE; LF]); repeat constructor.
Defined.

Lemma strip_behind_prefix (prefix code : str) :
  is_core prefix -> prefix <> [] ->
  exists rest,
    strip (prefix ++ code) = prefix ++ rest /\ strip rest = strip code.
Proof.
  intros [Hhead Hlast] Hne.
  destruct (strip_decompose code) as (u & m & v & -> & Hu & Hv & Hm).
  rewrite (strip_core u m v Hu Hv Hm).
  destruct m as [|h m'].
  - exists []. split.
    + rewrite app_nil_r.
      rewrite <- (strip_core [] prefix (u ++ [] ++ v)) at 2;
        [reflexivity | constructor | now apply Forall_app | now split].
    + reflexivity.
  - exists (u ++ h :: m'). split.
    + replace (prefix ++ u ++ (h :: m') ++ v)
        with ([] ++ (prefix ++ u ++ h :: m') ++ v)
        by (simpl; now rewrite <- !app_assoc).
      apply strip_core; [constructor | exact Hv|].
      destruct Hm as [_ Hm]. split.
      * destruct prefix; [contradiction | exact Hhead].
      * rewrite app_assoc, rev_app_distr.
        simpl in Hm. destruct (rev m' ++ [h]) eqn:Er.
        -- destruct (rev m'); discriminate.
        -- simpl. rewrite Er. exact Hm.
    + rewrite <- (app_nil_r (h :: m')) at 1.
      apply (strip_core u (h :: m') [] Hu (Forall_nil _) Hm).
Qed.

(** X13: a response in one of the two formats the system prompt asks for
    is decoded to what stands behind the keyword, stripped: behind
    [RESOLVED:] as the content of a resolved result, behind
    [CANNOT_RESOLVE:] as the explanation of an unresolved one with empty
    content. *)
Theorem parse_response_of_formats (body : str) :
  (resolved (_parse_response (RESOLVED ++ body)) = true /\
   content (_parse_response (RESOLVED ++ body)) = strip body) /\
  (resolved (_parse_response (CANNOT_RESOLVE ++ body)) = false /\
   content (_parse_response (CANNOT_RESOLVE ++ body)) = [] /\
   explanation (_parse_response (CANNOT_RESOLVE ++ body)) = strip body).
Proof.
  split.
  - destruct (strip_behind_prefix RESOLVED body) as (rest & E & Er);
      [now split | discriminate|].
    unfold _parse_response. rewrite E, startswith_app, skipn_prefix.
    now split.
  - destruct (strip_behind_prefix CANNOT_RESOLVE body) as (rest & E & Er);
      [now split | discriminate|].
    unfold _parse_response.
    rewrite E, cannot_resolve_is_not_resolved, startswith_app, skipn_prefix.
    now repeat split.
Qed.

(** * Properties of the splice loop of [resolve] *)

(** Whatever the replacement does, the text behind an occurrence of [old]
    is kept as the end of the result. *)
Lemma replace_first_keeps_tail (old new y : str) :
  forall x, exists z, replace_first old new (x ++ old ++ y) = z ++ y.
Proof.
  assert (Hhit : forall x,
             startswith (x ++ old ++ y) old = true ->
             exists z, replace_first old new (x ++ old ++ y) = z ++ y).
  { intros x H. exists (new ++ skipn (List.length old) (x ++ old)).
    destruct (x ++ old ++ y) as [|c s] eqn:E.
    - cbn [replace_first]. rewrite H.
      rewrite <- app_assoc. f_equal.
      destruct x; [|discriminate]. destruct old; [|discriminate].
      destruct y; [|discriminate]. reflexivity.
    - cbn [replace_first]. rewrite H. rewrite <- E.
      rewrite <- app_assoc. f_equal.
      rewrite (app_assoc x old y), skipn_app.
      replace (List.length old - List.length (x ++ old)) with 0
        by (rewrite length_app; lia).
      reflexivity. }
  induction x as [|c x IH].
  - apply Hhit. exact (startswith_app old y).
  - destruct (startswith ((c :: x) ++ old ++ y) old) eqn:H.
    + now apply Hhit.
    + destruct IH as [z Ez]. exists (c :: z).
      cbn [app replace_first]. cbn [app] in H. rewrite H, Ez. reflexivity.
Qed.

Lemma skipn_split3 {A} (l : list A) (k s e : nat) :
  k <= s -> s <= e ->
  skipn k l = slice k s l ++ slice s e l ++ skipn e l.
Proof.
  intros Hks Hse. unfold slice.
  rewrite <- (firstn_skipn (s - k) (skipn k l)) at 1. f_equal.
  rewrite skipn_skipn. replace (s - k + k) with s by lia.
  rewrite <- (firstn_skipn (e - s) (skipn s l)) at 1. f_equal.
  rewrite skipn_skipn. f_equal. lia.
Qed.

(** What is known of a block of [parse_conflicts] in terms of the lines. *)
Lemma block_at_slice (lines : list str) (b : ConflictBlock) :
  block_at lines b ->
  1 <= start b /\ start b <= end_ b /\ end_ b <= List.length lines /\
  raw b = join (slice (start b - 1) (end_ b) lines).
Proof.
  intros (pre & op & os & sep & ts & cl & post & -> & _ & _ & _ & _ & _ & ->).
  cbn [start end_ raw]. split; [lia|]. split; [lia|]. split; [list_len|].
  f_equal. symmetry.
  replace (pre ++ op :: os ++ sep :: ts ++ cl :: post)
    with (pre ++ (op :: os ++ sep :: ts ++ [cl]) ++ post) by list_eq.
  apply slice_middle; [lia | list_len].
Qed.

Lemma sorted_blocks_chain (lines : list str) :
  forall bs k,
    StronglySorted before bs ->
    Forall (fun b => k < start b /\ block_at lines b) bs ->
    chain (map raw bs) (join (skipn k lines)).
Proof.
  induction bs as [|b bs IH]; intros k Hs Hb; [exact I|].
  inversion Hs as [|? ? Hs' Hbefore]; subst.
  inversion Hb as [|? ? [Hk Hat] Hb']; subst.
  destruct (block_at_slice lines b Hat) as (H1 & Hse & He & Hraw).
  cbn [map chain].
  exists (join (slice k (start b - 1) lines)), (join (skipn (end_ b) lines)).
  split.
  - rewrite Hraw, <- !join_app. f_equal. apply skipn_split3; lia.
  - apply IH; [exact Hs'|].
    rewrite Forall_forall in *. intros b' Hin. split.
    + apply (Hbefore b' Hin).
    + apply (Hb' b' Hin).
Qed.

(** The raw texts of the blocks occur in the text in the order of the
    blocks, without overlap. *)
Lemma parse_conflicts_chain (content : str) :
  chain (map raw (parse_conflicts content)) content.
Proof.
  rewrite <- (join_splitlines content) at 2.
  apply (sorted_blocks_chain (splitlines content) _ 0).
  - apply (proj1 (scan_sorted (splitlines content))); constructor.
  - rewrite Forall_forall. intros b Hin.
    pose proof (parse_conflicts_block_at content b Hin) as Hat.
    split; [|exact Hat].
    destruct (block_at_slice _ b Hat) as (H1 & _). lia.
Qed.

Lemma splice_keeps_chain
    (resolve : nat -> ConflictBlock -> ResolutionResult) :
  forall done idx buf ar b todo,
    (exists z t, buf = z ++ t /\ chain (map raw (done ++ b :: todo)) t) ->
    substring (raw b) (fst (splice resolve idx done buf ar)).
Proof.
  induction done as [|d done IH]; intros idx buf ar b todo (z & t & -> & Hc).
  - cbn [app map chain] in Hc. destruct Hc as (x & y & -> & _).
    exists (z ++ x), y. cbn [splice fst]. now rewrite <- app_assoc.
  - cbn [app map chain] in Hc. destruct Hc as (x & y & -> & Hc).
    cbn [splice]. destruct (resolved (resolve idx d)).
    + apply (IH _ _ _ b todo).
      destruct (replace_first_keeps_tail (raw d) (content (resolve idx d)) y
                  (z ++ x)) as [z' Ez].
      exists z', y. split; [|exact Hc].
      now rewrite <- Ez, <- !app_assoc.
    + apply (IH _ _ _ b todo).
      exists (z ++ x ++ raw d), y. split; [|exact Hc].
      now rewrite <- !app_assoc.
Qed.

(** X14: when the loop of [resolve] comes to a block, the block's [raw]
    text occurs in the text as it stands then, whatever the resolver
    answered for the blocks before: a resolved block always finds its text
    to replace. *)
Theorem splice_finds_raw
    (resolve : nat -> ConflictBlock -> ResolutionResult) (content : str)
    (done : list ConflictBlock) (b : ConflictBlock)
    (todo : list ConflictBlock) :
  parse_conflicts content = done ++ b :: todo ->
  substring (raw b) (fst (splice resolve 1 done content true)).
Proof.
  intros E. apply (splice_keeps_chain resolve done 1 content true b todo).
  exists [], content. split; [reflexivity|].
  rewrite <- E. apply parse_conflicts_chain.
Qed.

Lemma splice_finds_raw_witness :
  substring
    (raw (nth 1 (parse_conflicts two_blocks) scenario_A_block))
    (fst (splice (resolve_const (lit "x = 3")) 1
            [nth 0 (parse_conflicts two_blocks) scenario_A_block]
            two_blocks true)).
Proof.
  apply (splice_finds_raw (resolve_const (lit "x = 3")) two_blocks
           [nth 0 (parse_conflicts two_blocks) scenario_A_block]
           (nth 1 (parse_conflicts two_blocks) scenario_A_block) []).
  reflexivity.
Defined.

Lemma replace_first_unfold (old new s : str) :
  replace_first old new s
  = if startswith s old then new ++ skipn (List.length old) s
    else match s with
         | [] => []
         | c :: rest => c :: replace_first old new rest
         end.
Proof. destruct s; reflexivity. Qed.

(** The replacement takes place at an occurrence of [old] before which no
    other occurrence starts. *)
Lemma replace_first_at (old new q : str) :
  forall p,
    (forall p1 p2, p = p1 ++ p2 -> p2 <> [] ->
                   startswith (p2 ++ old ++ q) old = false) ->
    replace_first old new (p ++ old ++ q) = p ++ new ++ q.
Proof.
  induction p as [|c p IH]; intros H.
  - rewrite replace_first_unfold. cbn [app].
    now rewrite startswith_app, skipn_prefix.
  - rewrite replace_first_unfold.
    rewrite (H [] (c :: p) eq_refl) by discriminate.
    cbn [app]. f_equal. apply IH.
    intros p1 p2 -> Hne. now apply (H (c :: p1) p2).
Qed.

Lemma startswith_prefix_or_in (m : str) :
  forall a z x,
    startswith (a ++ z :: x) m = true ->
    (exists r, a = m ++ r) \/ In z m.
Proof.
  induction m as [|c m IH]; intros a z x H.
  - left. now exists a.
  - destruct a as [|c' a]; cbn [app startswith] in H;
      apply andb_true_iff in H; destruct H as [Hc H];
      apply N.eqb_eq in Hc; subst.
    + right. now left.
    + destruct (IH a z x H) as [[r ->] | Hin].
      * left. now exists r.
      * right. now right.
Qed.

Lemma startswith_trans (s old m : str) :
  startswith s old = true -> startswith old m = true ->
  startswith s m = true.
Proof.
  intros H1 H2. apply startswith_spec in H1, H2.
  destruct H1 as [r1 ->]. destruct H2 as [r2 ->].
  rewrite <- app_assoc. apply startswith_app.
Qed.

Lemma occurs_spec (old s : str) :
  occurs old s = true <-> substring old s.
Proof.
  split.
  - induction s as [|c s IH]; cbn [occurs]; intros H;
      apply orb_true_iff in H; destruct H as [H | H].
    + apply startswith_spec in H. destruct H as [r E].
      exists [], r. exact E.
    + discriminate.
    + apply startswith_spec in H. destruct H as [r E].
      exists [], r. exact E.
    + destruct (IH H) as (p & q & ->). now exists (c :: p), q.
  - intros (p & q & ->). induction p as [|c p IH].
    + destruct (old ++ q) eqn:E; cbn [app occurs]; rewrite <- E;
        now rewrite startswith_app.
    + cbn [app occurs]. rewrite IH. apply orb_true_r.
Qed.

(** Every line that is followed by a further line ends with a line-break
    character. *)
Lemma lines_of_prefix_terminated (seg : list str) (l : str)
    (post : list str) :
  lines_of (seg ++ l :: post) ->
  Forall (fun x => exists w z, x = w ++ [z] /\ is_linebreak z = true) seg.
Proof.
  induction seg as [|a seg IH]; cbn [app]; [constructor|].
  intros H. inversion H as [|l' Hne Hl E|body t ls Hb Ht Hcr Hls E]; subst.
  - destruct seg; discriminate.
  - constructor; [|now apply IH].
    destruct Ht as [|c Hc].
    + exists (body ++ [CR]), LF. now rewrite <- app_assoc.
    + now exists body, c.
Qed.

Lemma join_ends_with_linebreak (pre : list str) :
  Forall (fun x => exists w z, x = w ++ [z] /\ is_linebreak z = true) pre ->
  pre <> [] ->
  exists w z, join pre = w ++ [z] /\ is_linebreak z = true.
Proof.
  intros Hpre Hne.
  destruct (exists_last Hne) as (pre' & x & ->).
  apply Forall_app in Hpre. destruct Hpre as [_ Hx].
  inversion Hx as [|? ? (w & z & -> & Hz) _]; subst.
  exists (join pre' ++ w), z. split; [|exact Hz].
  rewrite join_app, join_cons. change (join []) with (@nil char).
  now rewrite app_nil_r, app_assoc.
Qed.

(** X15: the first splice replaces the lines of the first block.  When the
    text before the opening line of the first block holds no run of seven
    [<], and the resolver resolves this block, the text after the first
    iteration of the loop is the lines before the block, the resolver's
    content, and the lines behind the block. *)
Theorem first_splice_replaces_block
    (resolve : nat -> ConflictBlock -> ResolutionResult) (file_content : str)
    (pre : list str) (op : str) (os : list str) (sep : str) (ts : list str)
    (cl : str) (post : list str) :
  splitlines file_content = pre ++ op :: os ++ sep :: ts ++ cl :: post ->
  ~ substring MARK_OPEN (join pre) ->
  is_open op = true ->
  Forall (fun l => is_sep l = false) os ->
  is_sep sep = true ->
  Forall (fun l => is_close l = false) ts ->
  is_close cl = true ->
  resolved (resolve 1 (block_of (List.length pre) op os sep ts cl)) = true ->
  exists b later,
    parse_conflicts file_content = b :: later /\
    b = block_of (List.length pre) op os sep ts cl /\
    fst (splice resolve 1 [b] file_content true)
    = join pre ++ content (resolve 1 b) ++ join post.
Proof.
  intros E Hno Hop Hos Hsep Hts Hcl Hres.
  assert (Hpre : Forall (fun l => is_open l = false) pre).
  { rewrite Forall_forall. intros l Hin.
    destruct (is_open l) eqn:Hl; [exfalso | reflexivity].
    apply startswith_spec in Hl. destruct Hl as [r ->].
    apply in_split in Hin. destruct Hin as (l1 & l2 & ->).
    apply Hno. exists (join l1), (r ++ join l2).
    rewrite join_app, join_cons. now rewrite <- !app_assoc. }
  exists (block_of (List.length pre) op os sep ts cl).
  exists (seek_open []
            (0 + List.length pre + List.length os + List.length ts + 3) post).
  split; [|split; [reflexivity|]].
  - unfold parse_conflicts. rewrite E.
    rewrite (seek_open_skip pre Hpre).
    rewrite (seek_open_block op os sep ts cl Hop Hos Hsep Hts Hcl).
    now rewrite (proj1 (scan_acc post)).
  - cbn [splice]. rewrite Hres. cbn [fst].
    set (new := content (resolve 1 _)). clearbody new.
    cbn [block_of raw].
    assert (Ec : file_content
                 = join pre ++ join (op :: os ++ sep :: ts ++ [cl])
                   ++ join post).
    { rewrite <- (join_splitlines file_content) at 1. rewrite E.
      rewrite <- !join_app. f_equal. list_eq. }
    rewrite Ec at 1. apply replace_first_at.
    intros p1 p2 Ep Hp2.
    destruct (startswith (p2 ++ _ ++ join post) _) eqn:Hs; [|reflexivity].
    exfalso.
    assert (Hne : pre <> []).
    { intros ->. cbn in Ep. destruct p1; [|discriminate].
      destruct p2; [contradiction | discriminate]. }
    pose proof (lines_of_splitlines file_content) as Hlines. rewrite E in Hlines.
    apply lines_of_prefix_terminated in Hlines.
    destruct (join_ends_with_linebreak pre Hlines Hne) as (w & z & Ew & Hz).
    destruct (exists_last Hp2) as (p2' & z' & ->).
    rewrite Ew, app_assoc in Ep. apply app_inj_tail in Ep.
    destruct Ep as [Ew' Ez]. subst z'.
    assert (Hstart : startswith
                       ((p2' ++ [z]) ++
                        join (op :: os ++ sep :: ts ++ [cl]) ++ join post)
                       MARK_OPEN = true).
    { apply (startswith_trans _ _ _ Hs).
      apply startswith_spec in Hop. destruct Hop as [r0 ->].
      rewrite join_cons, <- app_assoc. apply startswith_app. }
    rewrite <- app_assoc in Hstart. cbn [app] in Hstart.
    destruct (startswith_prefix_or_in _ _ _ _ Hstart) as [[r' ->] | Hin].
    + apply Hno. exists p1, (r' ++ [z]).
      rewrite Ew, Ew'. now rewrite <- !app_assoc.
    + cbn in Hin.
      repeat (destruct Hin as [<- | Hin]; [discriminate|]).
      exact Hin.
Qed.

Lemma first_splice_replaces_block_witness :
  exists b later,
    parse_conflicts simple_conflict = b :: later /\
    b = block_of 1 (unlines ["<<<<<<< HEAD"]%string)
          [unlines ["    return 1"]%string] (unlines ["======="]%string)
          [unlines ["    return 2"]%string]
          (unlines [">>>>>>> feature/friendly-greeting"]%string) /\
    fst (splice (resolve_const (unlines ["    return 3"]%string)) 1 [b]
           simple_conflict true)
    = join [unlines ["def greet(name):"]%string]
      ++ content (resolve_const (unlines ["    return 3"]%string) 1 b)
      ++ join [].
Proof.
  apply (first_splice_replaces_block
           (resolve_const (unlines ["    return 3"]%string)) simple_conflict
           [unlines ["def greet(name):"]%string]
           (unlines ["<<<<<<< HEAD"]%string)
           [unlines ["    return 1"]%string] (unlines ["======="]%string)
           [unlines ["    return 2"]%string]
           (unlines [">>>>>>> feature/friendly-greeting"]%string) []).
  - reflexivity.
  - intros H. apply occurs_spec in H. discriminate.
  - reflexivity.
  - repeat constructor.
  - reflexivity.
  - repeat constructor.
  - reflexivity.
  - reflexivity.
Defined.

(** * The header of [explain] *)

Lemma sorted_last_end (l : list ConflictBlock) (d : ConflictBlock) :
  StronglySorted before l ->
  Forall (fun b => start b <= end_ b) l ->
  forall b, In b l -> end_ b <= end_ (last l d).
Proof.
  induction 1 as [|a l Hs IH Ha]; intros Hse b Hin; [destruct Hin|].
  inversion Hse as [|? ? Hae Hse']; subst.
  destruct l as [|x l'].
  - destruct Hin as [<- | []]. reflexivity.
  - change (last (a :: x :: l') d) with (last (x :: l') d).
    destruct Hin as [<- | Hin]; [|now apply IH].
    inversion Ha as [|? ? Hax _]; subst. destruct Hax as [_ Hax].
    inversion Hse' as [|? ? Hxe _]; subst.
    specialize (IH Hse' x (or_introl eq_refl)).
    apply Nat.le_trans with (end_ x); [lia | exact IH].
Qed.

(** X16: when [explain] has a header to show, the range of lines it names
    covers every block: it runs from the first block's opening line to the
    last block's closing line, no block starts before it or ends behind
    it, and the count is the number of blocks. *)
Theorem explain_header_covers_blocks (content : str) (n s e : nat) :
  explain_header (parse_conflicts content) = Some (n, s, e) ->
  n = List.length (parse_conflicts content) /\
  s <= e /\
  forall b, In b (parse_conflicts content) -> s <= start b /\ end_ b <= e.
Proof.
  destruct (proj1 (scan_sorted (splitlines content)) [] 0
              (SSorted_nil _) (Forall_nil _)) as [Hs Hse].
  fold (parse_conflicts content) in Hs, Hse.
  destruct (parse_conflicts content) as [|first rest]; [discriminate|].
  cbn [explain_header]. intros H. injection H as <- <- <-.
  pose proof (sorted_last_end _ first Hs Hse) as Hlast.
  split; [reflexivity|]. split.
  - inversion Hse as [|? ? Hfirst _]; subst.
    exact (Nat.le_trans _ _ _ Hfirst (Hlast first (or_introl eq_refl))).
  - intros b Hin. split; [|now apply Hlast].
    destruct Hin as [<- | Hin]; [reflexivity|].
    inversion Hs as [|? ? _ Hbefore]; subst.
    rewrite Forall_forall in Hbefore.
    destruct (Hbefore b Hin) as [Hlt _]. lia.
Qed.

Lemma explain_header_covers_blocks_witness :
  explain_header (parse_conflicts two_blocks) = Some (2, 1, 11) /\
  2 = List.length (parse_conflicts two_blocks) /\
  1 <= 11 /\
  forall b, In b (parse_conflicts two_blocks) -> 1 <= start b /\ end_ b <= 11.
Proof.
  split; [reflexivity|].
  apply (explain_header_covers_blocks two_blocks 2 1 11). reflexivity.
Defined.
